(** * Secret Santa solver: the matcher [solve] and its retry loop.
    A shallow embedding of [solver.py].  The matcher pairs every giver with
    a receiver drawn at random, the main program retries it a bounded number
    of times.  Randomness is made explicit: every call the code makes to the
    generator ([random.shuffle], [random.choice]) takes its numbers from a
    tape, a finite list of naturals, and a run that needs more numbers than
    the tape holds is reported as [Starved].  A Python run on an endless
    generator corresponds to the runs on the finite prefixes of its stream.
    The matcher is modelled twice: on values, where a participant is a
    record and a list is a list, and on a store of objects, where lists hold
    references and are updated in place.  The two models are proved to
    agree ([store_solve_refines]).  The rest of the main program is
    modelled after that: the password taken from the environment, the
    mailer [send_emails] and the two modes of the program.  The mail server
    and the template are outside the program: the server is a list of
    answers, one for each call made to it, and the template is a function
    from the fields it is given to a text. *)

From stdpp Require Import base list strings gmap.
From Stdlib Require Import Lia.

(** * The program *)

(** ** Data model *)

(** An entry of the [participants] list of [settings.yml].  The settings
    schema admits exactly the two keys [name] and [email], both strings. *)
Record participant := Participant { name : string; email : string }.

(** Python compares dicts key by key: [receiver == giver] holds when both
    the name and the e-mail agree, which is equality of records here. *)
#[global] Instance participant_eq_dec : EqDecision participant.
Proof. solve_decision. Defined.

(** A [[giver, receiver]] entry of the list [pairs]. *)
Definition pair : Type := participant * participant.

Definition giver_of (p : pair) : participant := fst p.
Definition receiver_of (p : pair) : participant := snd p.

(** The exceptions that the modelled code can raise. *)
Inductive exn :=
  | DeadEndException
  | AssertionError (msg : string)
  | IndexError
  | ValueError.

#[global] Instance exn_eq_dec : EqDecision exn.
Proof. solve_decision. Defined.

(** What a call produces: a value, an exception, or nothing yet because the
    tape ran out while the code was still asking for random numbers. *)
Inductive outcome (A : Type) :=
  | Returned (a : A)
  | Raised (e : exn)
  | Starved.
Arguments Returned {A} a.
Arguments Raised {A} e.
Arguments Starved {A}.

Definition terminated {A} (o : outcome A) : Prop :=
  match o with Starved => False | _ => True end.

Definition outcome_map {X Y} (f : X → Y) (o : outcome X) : outcome Y :=
  match o with
  | Returned a => Returned (f a)
  | Raised e => Raised e
  | Starved => Starved
  end.

(** ** The random source *)

Definition tape := list nat.

(** [random.choice(seq)] is [seq[randbelow(len(seq))]]; on an empty sequence
    it raises [IndexError].  The number read from the tape is reduced modulo
    the length, so every index of the sequence can be drawn. *)
Definition choice {A} (seq : list A) (k : nat) : option A :=
  seq !! (k mod length seq).

(** [x[i], x[j] = x[j], x[i]] *)
Definition swap {A} (x : list A) (i j : nat) : list A :=
  match x !! i, x !! j with
  | Some xi, Some xj => <[j := xi]> (<[i := xj]> x)
  | _, _ => x
  end.

(** [random.shuffle(x)]:
    [for i in reversed(range(1, len(x))): j = randbelow(i + 1); swap].
    The first argument counts [i] down from [len(x) - 1] to [1]. *)
Fixpoint shuffle_from {A} (i : nat) (x : list A) (t : tape) : option (list A * tape) :=
  match i with
  | 0 => Some (x, t)
  | S i' =>
      match t with
      | [] => None
      | k :: t' => shuffle_from i' (swap x i (k mod (i + 1))) t'
      end
  end.

Definition shuffle {A} (x : list A) (t : tape) : option (list A * tape) :=
  shuffle_from (length x - 1) x t.

(** ** The matcher *)

(** One evaluation of [receiver = random.choice(receivers)] together with
    the giver it was drawn for and the pool it was drawn from. *)
Record draw := Draw {
  d_giver : participant;
  d_pool : list participant;
  d_candidate : participant
}.

(** The condition under which the code raises [DeadEndException]. *)
Definition dead_end (d : draw) : Prop :=
  d_candidate d = d_giver d ∧ length (d_pool d) = 1.

#[global] Instance dead_end_dec d : Decision (dead_end d).
Proof. unfold dead_end. apply _. Defined.

(** [receivers.remove(receiver)]: drops the first entry equal to its
    argument, [ValueError] ([None]) when there is none. *)
Fixpoint remove (x : participant) (l : list participant) : option (list participant) :=
  match l with
  | [] => None
  | y :: l' =>
      if decide (y = x) then Some l'
      else match remove x l' with
           | Some r => Some (y :: r)
           | None => None
           end
  end.

(** The [while True] loop run for one giver.  It yields the receiver that
    was accepted, or the exception that left the loop; second, the draws it
    made, in order; third, the rest of the tape. *)
Fixpoint pick (giver : participant) (receivers : list participant) (t : tape)
  : outcome participant * list draw * tape :=
  match t with
  | [] => (Starved, [], [])
  | k :: t' =>
      match choice receivers k with
      | None => (Raised IndexError, [], t')
      | Some receiver =>
          let d := Draw giver receivers receiver in
          if decide (receiver = giver) then
            if decide (length receivers = 1) then (Raised DeadEndException, [d], t')
            else let '(o, ds, t'') := pick giver receivers t' in (o, d :: ds, t'')
          else (Returned receiver, [d], t')
      end
  end.

(** The [for giver in givers] loop.  [pairs] and [receivers] are the two
    lists the loop body mutates. *)
Fixpoint pair_up (givers receivers : list participant) (pairs : list pair) (t : tape)
  : outcome (list pair) * list draw * tape :=
  match givers with
  | [] => (Returned pairs, [], t)
  | giver :: givers' =>
      match pick giver receivers t with
      | (Returned receiver, ds, t') =>
          match remove receiver receivers with
          | None => (Raised ValueError, ds, t')
          | Some receivers' =>
              let '(o, ds', t'') :=
                pair_up givers' receivers' (pairs ++ [(giver, receiver)]) t' in
              (o, ds ++ ds', t'')
          end
      | (Raised e, ds, t') => (Raised e, ds, t')
      | (Starved, ds, t') => (Starved, ds, t')
      end
  end.

(** The inner loop of the paranoia test: counts the pairs in which [person]
    gives and those in which [person] receives, comparing names. *)
Fixpoint tally (person : participant) (pairs : list pair) (giveCount receiveCount : nat)
  : nat * nat :=
  match pairs with
  | [] => (giveCount, receiveCount)
  | p :: pairs' =>
      let giveCount :=
        if String.eqb (name (giver_of p)) (name person) then giveCount + 1 else giveCount in
      let receiveCount :=
        if String.eqb (name (receiver_of p)) (name person) then receiveCount + 1
        else receiveCount in
      tally person pairs' giveCount receiveCount
  end.

(** The paranoia test: the first assertion that fails, if any. *)
Fixpoint paranoia (participants : list participant) (pairs : list pair) : option exn :=
  match participants with
  | [] => None
  | person :: rest =>
      let '(giveCount, receiveCount) := tally person pairs 0 0 in
      if negb (giveCount =? 1) then
        Some (AssertionError "Each person should be a giver exactly once"%string)
      else if negb (receiveCount =? 1) then
        Some (AssertionError "Each person should be a receiver exactly once"%string)
      else paranoia rest pairs
  end.

(** [solve(participants)], with the draws it made and the tape it leaves.
    [deepcopy] of a list of records of strings yields equal values. *)
Definition solve_run (participants : list participant) (t : tape)
  : outcome (list pair) * list draw * tape :=
  let givers := participants in
  let receivers := participants in
  let pairs : list pair := [] in
  match shuffle receivers t with
  | None => (Starved, [], [])
  | Some (receivers, t) =>
      match pair_up givers receivers pairs t with
      | (Returned pairs, ds, t) =>
          match paranoia participants pairs with
          | Some e => (Raised e, ds, t)
          | None => (Returned pairs, ds, t)
          end
      | r => r
      end
  end.

(** The three components of a run of [solve]. *)
Definition solve (participants : list participant) (t : tape) : outcome (list pair) :=
  (solve_run participants t).1.1.
Definition draws (participants : list participant) (t : tape) : list draw :=
  (solve_run participants t).1.2.
Definition rest (participants : list participant) (t : tape) : tape :=
  (solve_run participants t).2.

(** ** The retry loop of the main program *)

Definition max_attempts : nat := 20.

(** What the loop does that can be seen from outside, in order. *)
Inductive event :=
  | SolveCalled (participants : list participant) (t : tape) (o : outcome (list pair))
  | EmailsSent (pairs : list pair)
  | Printed (line : string).

(** How the program ends: it runs to its last line, an exception escapes,
    or it is still drawing when the tape ends. *)
Inductive ending :=
  | Finished
  | Uncaught (e : exn)
  | Hung.

Record run := Run { attempts : nat; events : list event; final : ending }.

Definition after (evs : list event) (r : run) : run :=
  Run (attempts r) (evs ++ events r) (final r).

(** The two [print] calls that follow the loop. *)
Definition after_loop (attempts : nat) : run :=
  Run attempts [Printed ""%string; Printed "Finished!"%string] Finished.

(** [for _ in range(max_attempts)], with [n] iterations left.  The call of
    [send_emails] is recorded; it handles its own transport errors and is
    taken to return. *)
Fixpoint retry (n : nat) (attempts : nat) (participants : list participant) (t : tape)
  : run :=
  match n with
  | 0 => after_loop attempts
  | S n' =>
      let attempts := attempts + 1 in
      match solve participants t with
      | Returned pairs =>
          after [SolveCalled participants t (Returned pairs); EmailsSent pairs]
            (after_loop attempts)
      | Raised DeadEndException =>
          after [SolveCalled participants t (Raised DeadEndException);
                 Printed "Failed to solve, retrying..."%string]
            (retry n' attempts participants (rest participants t))
      | Raised e => Run attempts [SolveCalled participants t (Raised e)] (Uncaught e)
      | Starved => Run attempts [SolveCalled participants t Starved] Hung
      end
  end.

(** The [else] branch of the main program, entered with [attempts = 0]. *)
Definition main (participants : list participant) (t : tape) : run :=
  retry max_attempts 0 participants t.

(** The calls of [solve] among the events, and their outcomes. *)
Definition calls (evs : list event)
  : list (list participant * tape * outcome (list pair)) :=
  omap (λ ev, match ev with SolveCalled ps t o => Some (ps, t, o) | _ => None end) evs.

Definition outcomes (evs : list event) : list (outcome (list pair)) :=
  (calls evs).*2.

Definition sent (evs : list event) : list (list pair) :=
  omap (λ ev, match ev with EmailsSent pairs => Some pairs | _ => None end) evs.

(** ** The matcher on a store of objects.
    [solve] again, this time on the objects of the Python heap: the lists and
    the records are objects in a store, a list holds references to its
    items, [deepcopy] allocates new objects, and [shuffle], [append] and
    [remove] update a list object in place. *)

Module Store.

Abbreviation loc := nat (only parsing).

Inductive obj :=
  | Dict (p : participant)
  | List (items : list loc).

(** The object at location [l] is [h !! l]; new objects go to the end. *)
Abbreviation store := (list obj) (only parsing).

(** Reading a record and reading the items of a list.  In the stores of the
    program every reference leads to an object of the expected kind; a
    reference that does not reads as an empty record or an empty list. *)
Definition record_at (h : store) (l : loc) : participant :=
  match h !! l with
  | Some (Dict p) => p
  | _ => Participant ""%string ""%string
  end.

Definition items_at (h : store) (l : loc) : list loc :=
  match h !! l with
  | Some (List items) => items
  | _ => []
  end.

(** [l.append(x)] *)
Definition append (l x : loc) (h : store) : store :=
  <[l := List (items_at h l ++ [x])]> h.

(** The memo of [deepcopy]: which object was copied to which. *)
Fixpoint memo_get (a : loc) (memo : list (loc * loc)) : option loc :=
  match memo with
  | [] => None
  | (b, b') :: memo' => if decide (b = a) then Some b' else memo_get a memo'
  end.

(** The loop of [deepcopy] over the items of a list: an item that was copied
    before is shared, any other record is copied to a new object; the copy
    is appended to the new list [y]. *)
Fixpoint copy_items (items : list loc) (y : loc) (memo : list (loc * loc)) (h : store)
  : store :=
  match items with
  | [] => h
  | a :: items' =>
      match memo_get a memo with
      | Some a' => copy_items items' y memo (append y a' h)
      | None =>
          let a' := length h in
          let h := h ++ [Dict (record_at h a)] in
          copy_items items' y ((a, a') :: memo) (append y a' h)
      end
  end.

(** [deepcopy(x)] for a list [x] of records. *)
Definition deepcopy (x : loc) (h : store) : loc * store :=
  let y := length h in
  let h := h ++ [List []] in
  (y, copy_items (items_at h x) y [] h).

(** [random.shuffle(x)], in place. *)
Definition shuffle_in_place (x : loc) (h : store) (t : tape) : option (store * tape) :=
  match shuffle (items_at h x) t with
  | Some (items, t') => Some (<[x := List items]> h, t')
  | None => None
  end.

(** The search of [list.remove]; [y == x] compares the two records. *)
Fixpoint remove_first (h : store) (x : loc) (items : list loc) : option (list loc) :=
  match items with
  | [] => None
  | y :: items' =>
      if decide (record_at h y = record_at h x) then Some items'
      else match remove_first h x items' with
           | Some r => Some (y :: r)
           | None => None
           end
  end.

(** [l.remove(x)], in place. *)
Definition remove (l x : loc) (h : store) : option store :=
  match remove_first h x (items_at h l) with
  | Some items => Some (<[l := List items]> h)
  | None => None
  end.

(** The [while True] loop; it reads the store and leaves it as it is. *)
Fixpoint pick (giver receivers : loc) (h : store) (t : tape) : outcome loc * tape :=
  match t with
  | [] => (Starved, [])
  | k :: t' =>
      match choice (items_at h receivers) k with
      | None => (Raised IndexError, t')
      | Some receiver =>
          if decide (record_at h receiver = record_at h giver) then
            if decide (length (items_at h receivers) = 1) then
              (Raised DeadEndException, t')
            else pick giver receivers h t'
          else (Returned receiver, t')
      end
  end.

(** The [for giver in givers] loop over the items of [givers]. *)
Fixpoint pair_up (givers : list loc) (receivers pairs : loc) (h : store) (t : tape)
  : outcome unit * store * tape :=
  match givers with
  | [] => (Returned (), h, t)
  | giver :: givers' =>
      match pick giver receivers h t with
      | (Returned receiver, t') =>
          let p := length h in
          let h := h ++ [List [giver; receiver]] in
          let h := append pairs p h in
          match remove receivers receiver h with
          | None => (Raised ValueError, h, t')
          | Some h => pair_up givers' receivers pairs h t'
          end
      | (Raised e, t') => (Raised e, h, t')
      | (Starved, t') => (Starved, h, t')
      end
  end.

(** [pair[i]["name"]] *)
Definition name_at (h : store) (pair : loc) (i : nat) : string :=
  match items_at h pair !! i with
  | Some l => name (record_at h l)
  | None => ""%string
  end.

Fixpoint tally (h : store) (person : loc) (pairs : list loc) (giveCount receiveCount : nat)
  : nat * nat :=
  match pairs with
  | [] => (giveCount, receiveCount)
  | pair :: pairs' =>
      let giveCount :=
        if String.eqb (name_at h pair 0) (name (record_at h person)) then giveCount + 1
        else giveCount in
      let receiveCount :=
        if String.eqb (name_at h pair 1) (name (record_at h person)) then receiveCount + 1
        else receiveCount in
      tally h person pairs' giveCount receiveCount
  end.

Fixpoint paranoia (h : store) (participants : list loc) (pairs : list loc) : option exn :=
  match participants with
  | [] => None
  | person :: others =>
      let '(giveCount, receiveCount) := tally h person pairs 0 0 in
      if negb (giveCount =? 1) then
        Some (AssertionError "Each person should be a giver exactly once"%string)
      else if negb (receiveCount =? 1) then
        Some (AssertionError "Each person should be a receiver exactly once"%string)
      else paranoia h others pairs
  end.

(** [solve(participants)]: the outcome (the list [pairs] when it returns),
    the store and the tape it leaves. *)
Definition solve (participants : loc) (h : store) (t : tape)
  : outcome loc * store * tape :=
  let '(givers, h) := deepcopy participants h in
  let '(receivers, h) := deepcopy participants h in
  let pairs := length h in
  let h := h ++ [List []] in
  match shuffle_in_place receivers h t with
  | None => (Starved, h, [])
  | Some (h, t) =>
      match pair_up (items_at h givers) receivers pairs h t with
      | (Returned _, h, t) =>
          match paranoia h (items_at h participants) (items_at h pairs) with
          | Some e => (Raised e, h, t)
          | None => (Returned pairs, h, t)
          end
      | (Raised e, h, t) => (Raised e, h, t)
      | (Starved, h, t) => (Starved, h, t)
      end
  end.

(** The participants that a list object stands for, and the pairs that the
    list [pairs] stands for. *)
Definition read (h : store) (l : loc) : list participant :=
  record_at h <$> items_at h l.

Definition read_pair (h : store) (l : loc) : pair :=
  match items_at h l with
  | [g; r] => (record_at h g, record_at h r)
  | _ => (Participant ""%string ""%string, Participant ""%string ""%string)
  end.

Definition read_pairs (h : store) (pairs : loc) : list pair :=
  read_pair h <$> items_at h pairs.

End Store.

(** ** The settings *)

(** The [smtp] entry of the [config] section of [settings.yml]. *)
Record smtp_settings := SmtpSettings {
  host : string;
  port : Z;
  user : string;
  password : string
}.

(** The [config] section: [config, rules, participants = load_settings()].
    The entry [testing] has a name and an e-mail, as a participant has. *)
Record config := Config {
  email_subject : string;
  smtp : smtp_settings;
  testing : participant
}.

(** [config["smtp"]["password"] = value] *)
Definition set_password (c : config) (value : string) : config :=
  Config (email_subject c)
    (SmtpSettings (host (smtp c)) (port (smtp c)) (user (smtp c)) value)
    (testing c).

(** ** The password of the main program *)

(** [s.startswith(pre)] and [s[1:]]. *)
Definition startswith (pre s : string) : bool := String.prefix pre s.

Definition from_1 (s : string) : string :=
  match s with
  | EmptyString => EmptyString
  | String _ s' => s'
  end.

(** What the lines on the password leave: the password to use, or the call
    of [exit(1)] after the message on the variable that is not set. *)
Inductive resolution :=
  | Resolved (value : string)
  | NotFound (pass_var : string).

(** The [if]/[elif] on [config["smtp"]["password"]].  [environ] is
    [os.environ]; a key that is missing raises [KeyError]. *)
Definition resolve_password (password : string) (environ : gmap string string)
    (dry_run : bool) : resolution :=
  if startswith "$" password then
    let pass_var := from_1 password in
    match environ !! pass_var with
    | Some value => Resolved value
    | None => if dry_run then Resolved EmptyString else NotFound pass_var
    end
  else if startswith "\$" password then Resolved (from_1 password)
  else Resolved password.

(** ** Sending the e-mails *)

(** What a call to a collaborator of [send_emails] does: it returns, it
    raises an [smtplib.SMTPException], whose [repr] is printed, or it raises
    something else (an [OSError] of the socket, an error of the template). *)
Inductive reply :=
  | Ok
  | SMTPException (repr : string)
  | OtherError.

(** The calls to the SMTP server. *)
Inductive smtp_call :=
  | Connect (host : string) (port : Z)
  | Ehlo
  | Login (user password : string)
  | Sendmail (from_addr to_addr msg : string)
  | Close.

(** What the program does that can be seen from outside, in order. *)
Inductive action :=
  | Opened (ok : bool)
  | Smtp (c : smtp_call) (r : reply)
  | Say (line : string)
  | SayPart (text : string)
  | Sleep (seconds : nat)
  | Solved (participants : list participant) (t : tape) (o : outcome (list pair)).

(** The exceptions that leave [send_emails] or the main program. *)
Inductive failure :=
  | SolverError (e : exn)
  | UnboundLocalError
  | SMTPError (repr : string)
  | ForeignError.

Inductive result :=
  | Return
  | Raise (f : failure).

(** The server answers the calls in turn; when the list of its answers
    runs out, every further call returns. *)
Definition next (w : list reply) : reply * list reply :=
  match w with
  | [] => (Ok, [])
  | r :: w' => (r, w')
  end.

(** [f"{email_to:<30}"]: the text, padded with spaces on the right to a
    width of 30. *)
Fixpoint spaces (n : nat) : string :=
  match n with
  | 0 => EmptyString
  | S n' => " " +:+ spaces n'
  end.

Definition ljust (width : nat) (s : string) : string :=
  s +:+ spaces (width - String.length s).

Section send_emails.
Context {Rules : Type}.

(** [email_tpl.render(sender=, giver=, receiver=, subject=, **rules)]: the
    text of the message, or nothing when the template raises. *)
Variable render : string → participant → participant → string → Rules → option string.

(** The loop [for giver, receiver in pairs] of [send_emails].  It yields the
    actions, how the loop ended ([Ok]: it ran to its end) and the answers
    the server has left. *)
Fixpoint send_each (config : config) (rules : Rules) (pairs : list pair) (dry_run : bool)
    (w : list reply) : list action * reply * list reply :=
  match pairs with
  | [] => ([], Ok, w)
  | (giver, receiver) :: pairs' =>
      let email_from := user (smtp config) in
      let email_to := email giver in
      match render (user (smtp config)) giver receiver (email_subject config) rules with
      | None => ([], OtherError, w)
      | Some email_body =>
          if dry_run then
            let '(acts, r, w) := send_each config rules pairs' dry_run w in
            (Say email_body :: acts, r, w)
          else
            let '(r, w) := next w in
            let sending :=
              [SayPart ("Sending e-mail to " +:+ ljust 30 email_to);
               Smtp (Sendmail email_from email_to email_body) r] in
            match r with
            | Ok =>
                let '(acts, r, w) := send_each config rules pairs' dry_run w in
                (sending ++ [Say "[OK]"; Sleep 1] ++ acts, r, w)
            | _ => (sending, r, w)
            end
      end
  end.

(** The body of the [try] after the connection is made: [ehlo] and [login]
    unless it is a dry run, then the loop. *)
Definition session (config : config) (rules : Rules) (pairs : list pair) (dry_run : bool)
    (w : list reply) : list action * reply * list reply :=
  if dry_run then send_each config rules pairs dry_run w
  else
    let '(r, w) := next w in
    match r with
    | Ok =>
        let '(r', w) := next w in
        let login := Smtp (Login (user (smtp config)) (password (smtp config))) r' in
        match r' with
        | Ok =>
            let '(acts, r'', w) := send_each config rules pairs dry_run w in
            (Smtp Ehlo r :: login :: acts, r'', w)
        | _ => ([Smtp Ehlo r; login], r', w)
        end
    | _ => ([Smtp Ehlo r], r, w)
    end.

(** [send_emails(config, rules, pairs, dry_run)].  [template_ok] tells
    whether [email_template.j2] can be opened and parsed.  When the
    connection fails, [server] is not bound and the [finally] clause raises
    [UnboundLocalError]; an exception raised by [server.close()] replaces
    the one that is on its way. *)
Definition send_emails (config : config) (rules : Rules) (pairs : list pair)
    (dry_run : bool) (template_ok : bool) (w : list reply)
  : list action * result * list reply :=
  if negb template_ok then ([Opened false], Raise ForeignError, w)
  else
    let '(r, w) := next w in
    let connect := Smtp (Connect (host (smtp config)) (port (smtp config))) r in
    match r with
    | Ok =>
        let '(acts, r, w) := session config rules pairs dry_run w in
        let handler :=
          match r with
          | SMTPException repr => [Say ("SMTP borked: ex=" +:+ repr)]
          | _ => []
          end in
        let '(rc, w) := next w in
        ([Opened true; connect] ++ acts ++ handler ++ [Smtp Close rc],
         match rc with
         | Ok => match r with OtherError => Raise ForeignError | _ => Return end
         | SMTPException repr => Raise (SMTPError repr)
         | OtherError => Raise ForeignError
         end,
         w)
    | SMTPException repr =>
        ([Opened true; connect; Say ("SMTP borked: ex=" +:+ repr)],
         Raise UnboundLocalError, w)
    | OtherError => ([Opened true; connect], Raise UnboundLocalError, w)
    end.

(** ** The main program *)

(** The two flags of the command line. *)
Record args := Args { no_dry_run : bool; test_email : bool }.

(** How the program ends: it runs to its last line, it calls [exit], an
    exception escapes, or it is still drawing when the tape ends. *)
Inductive halt :=
  | Done
  | Exit (code : nat)
  | Crash (f : failure)
  | Hang.

(** The loop [for _ in range(max_attempts)] with [n] rounds left, and the
    two lines printed after it.  The counter [attempts], which the program
    increments and never reads, is kept by [retry] above. *)
Fixpoint attempt (n : nat) (config : config) (rules : Rules)
    (participants : list participant) (dry_run template_ok : bool)
    (t : tape) (w : list reply) : list action * halt :=
  match n with
  | 0 => ([Say EmptyString; Say "Finished!"], Done)
  | S n' =>
      let o := solve participants t in
      match o with
      | Returned pairs =>
          let '(acts, res, _) := send_emails config rules pairs dry_run template_ok w in
          match res with
          | Return => (Solved participants t o :: acts ++ [Say EmptyString; Say "Finished!"], Done)
          | Raise f => (Solved participants t o :: acts, Crash f)
          end
      | Raised DeadEndException =>
          let '(acts, h) :=
            attempt n' config rules participants dry_run template_ok
              (rest participants t) w in
          (Solved participants t o :: Say "Failed to solve, retrying..." :: acts, h)
      | Raised e => ([Solved participants t o], Crash (SolverError e))
      | Starved => ([Solved participants t o], Hang)
      end
  end.

(** The pair of the test mode. *)
Definition test_pairs (config : config) : list pair :=
  [(Participant (name (testing config) +:+ " (giver)") (email (testing config)),
    Participant (name (testing config) +:+ " (receiver)") (email (testing config)))].

(** The [if args.test_email] at the end of the main program: the test
    mode, which sends to the test address whatever [dry_run] is, or the
    retry loop. *)
Definition run_mode (a : args) (config : config) (rules : Rules)
    (participants : list participant) (dry_run template_ok : bool)
    (t : tape) (w : list reply) : list action * halt :=
  if test_email a then
    let '(acts, res, _) :=
      send_emails config rules (test_pairs config) false template_ok w in
    let intro :=
      Say ("E-mail testing mode, sending one giver and one receiver e-mail "
           +:+ "to the configured test address...") in
    match res with
    | Return => (intro :: acts ++ [Say "Test e-mails sent"], Done)
    | Raise f => (intro :: acts, Crash f)
    end
  else attempt max_attempts config rules participants dry_run template_ok t w.

(** The main program, from the parsed command line and the loaded settings
    on: the password is resolved and written back to the settings, then the
    mode is run. *)
Definition program (a : args) (config : config) (rules : Rules)
    (participants : list participant) (environ : gmap string string)
    (template_ok : bool) (t : tape) (w : list reply) : list action * halt :=
  let dry_run := negb (no_dry_run a) in
  match resolve_password (password (smtp config)) environ dry_run with
  | NotFound pass_var =>
      ([Say ("Cannot continue. Env var " +:+ pass_var +:+ " not found.")], Exit 1)
  | Resolved value =>
      run_mode a (set_password config value) rules participants dry_run template_ok t w
  end.

End send_emails.

(** * Vocabulary of the statements *)

(** ** Runs of the matcher *)

(** No draw of the list meets the dead-end condition. *)
Definition no_dead (ds : list draw) : Prop := Forall (λ d, ¬ dead_end d) ds.

(** How the [while True] loop can end. *)
Inductive pick_ends (giver : participant) (receivers : list participant)
  : outcome participant → list draw → Prop :=
  | pick_accepts r ds :
      r ∈ receivers → r ≠ giver → no_dead ds →
      pick_ends giver receivers (Returned r) ds
  | pick_dead_end ds :
      receivers = [giver] → no_dead ds →
      pick_ends giver receivers (Raised DeadEndException)
        (ds ++ [Draw giver [giver] giver])
  | pick_empty_pool :
      receivers = [] → pick_ends giver receivers (Raised IndexError) []
  | pick_starved ds :
      no_dead ds → pick_ends giver receivers Starved ds.

(** How the [for giver in givers] loop can end when it starts with as many
    receivers as givers. *)
Inductive pair_up_ends (givers receivers : list participant) (pairs : list pair)
  : outcome (list pair) → list draw → Prop :=
  | pair_up_done new ds :
      new.*1 = givers → new.*2 ≡ₚ receivers →
      Forall (λ p : pair, giver_of p ≠ receiver_of p) new → no_dead ds →
      pair_up_ends givers receivers pairs (Returned (pairs ++ new)) ds
  | pair_up_dead_end new g ds :
      new.*1 ++ [g] = givers → new.*2 ++ [g] ≡ₚ receivers →
      Forall (λ p : pair, giver_of p ≠ receiver_of p) new → no_dead ds →
      pair_up_ends givers receivers pairs (Raised DeadEndException)
        (ds ++ [Draw g [g] g])
  | pair_up_starved ds :
      no_dead ds → pair_up_ends givers receivers pairs Starved ds.

(** How a run of [solve] can end: with a complete pairing, which requires
    pairwise distinct names; in the dead end, where all givers but the last
    are paired and the receiver that is left is the last giver; in a failed
    assertion, which requires a repeated name; or out of random numbers. *)
Inductive solve_ends (participants : list participant)
  : outcome (list pair) → list draw → Prop :=
  | solve_returns pairs ds :
      pairs.*1 = participants → pairs.*2 ≡ₚ participants →
      Forall (λ p : pair, giver_of p ≠ receiver_of p) pairs →
      NoDup (name <$> participants) → no_dead ds →
      solve_ends participants (Returned pairs) ds
  | solve_dead_end new g ds :
      new.*1 ++ [g] = participants → new.*2 ++ [g] ≡ₚ participants →
      Forall (λ p : pair, giver_of p ≠ receiver_of p) new → no_dead ds →
      solve_ends participants (Raised DeadEndException) (ds ++ [Draw g [g] g])
  | solve_asserts msg ds :
      ¬ NoDup (name <$> participants) → no_dead ds →
      solve_ends participants (Raised (AssertionError msg)) ds
  | solve_starved ds :
      no_dead ds → solve_ends participants Starved ds.

(** The pools from which the loop of one giver can get out. *)
Definition escapable (giver : participant) (receivers : list participant) : Prop :=
  length receivers = 1 ∨ ∃ r, r ∈ receivers ∧ r ≠ giver.

(** ** Counting *)

(** How many entries of a list carry the name [n]. *)
Definition times (n : string) (l : list participant) : nat :=
  length (filter (λ q, name q = n) l).

(** In how many pairs [p] is the giver, in how many the receiver. *)
Definition gives (p : participant) (pairs : list pair) : nat :=
  length (filter (λ pr, giver_of pr = p) pairs).
Definition receives (p : participant) (pairs : list pair) : nat :=
  length (filter (λ pr, receiver_of pr = p) pairs).

(** How many entries of a list are equal to [p]. *)
Definition occurrences (p : participant) (l : list participant) : nat :=
  length (filter (λ q, q = p) l).

(** ** Runs of the retry loop *)

(** The calls of a run in which every attempt starts from scratch: each is
    a call of [solve] on the whole list of participants, on the tape that
    the call before it left, and every call but the last one raised
    [DeadEndException]. *)
Inductive retried (participants : list participant)
  : tape → list (list participant * tape * outcome (list pair)) → Prop :=
  | retried_last t :
      retried participants t [(participants, t, solve participants t)]
  | retried_again t cs :
      solve participants t = Raised DeadEndException →
      retried participants (rest participants t) cs →
      retried participants t ((participants, t, Raised DeadEndException) :: cs).

(** ** Stores *)

(** [l] holds a record; [l] holds a pair of two records, which are two
    objects. *)
Definition is_record (h : list Store.obj) (l : nat) : Prop :=
  ∃ q, h !! l = Some (Store.Dict q).

Definition is_pair (h : list Store.obj) (l : nat) : Prop :=
  ∃ g r, h !! l = Some (Store.List [g; r]) ∧ is_record h g ∧ is_record h r ∧ g ≠ r.

(** A list of records at [l], as the settings loader leaves it. *)
Definition well_formed (h : list Store.obj) (l : nat) : Prop :=
  ∃ items, h !! l = Some (Store.List items) ∧ Forall (is_record h) items.

(** [h'] has every object of [h] that is not listed in [w], unchanged. *)
Definition writes_only (w : list nat) (h h' : list Store.obj) : Prop :=
  length h ≤ length h' ∧ ∀ l, l < length h → l ∉ w → h' !! l = h !! l.

(** The state of the [for] loop in the store: the list [receivers] holds
    records, none of which is the object of a giver still to come, the list
    [pairs] holds pairs of records, which are objects of their own, and the
    givers still to come are records. *)
Definition linked (h : list Store.obj) (receivers pairs : nat) (givers : list nat) : Prop :=
  receivers ≠ pairs ∧
  (∃ rs, h !! receivers = Some (Store.List rs) ∧ Forall (is_record h) rs ∧
         Forall (λ g, g ∉ rs) givers) ∧
  (∃ prs, h !! pairs = Some (Store.List prs) ∧
          Forall (λ p, is_pair h p ∧ p ≠ receivers ∧ p ≠ pairs) prs) ∧
  Forall (is_record h) givers.

(** ** Runs of the mailer and of the main program *)

(** The calls to the server among the actions, in order. *)
Definition smtp_calls (acts : list action) : list smtp_call :=
  omap (λ a, match a with Smtp c _ => Some c | _ => None end) acts.

(** A message as it is handed to [server.sendmail]. *)
Record message := Message { msg_from : string; msg_to : string; msg_body : string }.

(** The messages that the server accepted. *)
Definition delivered (acts : list action) : list message :=
  omap (λ a, match a with
             | Smtp (Sendmail from_addr to_addr msg) Ok => Some (Message from_addr to_addr msg)
             | _ => None
             end) acts.

(** The calls of [solve] among the actions, and their outcomes. *)
Definition solve_calls (acts : list action)
  : list (list participant * tape * outcome (list pair)) :=
  omap (λ a, match a with Solved ps t o => Some (ps, t, o) | _ => None end) acts.

(** The line that the handler of [smtplib.SMTPException] prints. *)
Definition borked (repr : string) : action := Say ("SMTP borked: ex=" +:+ repr).

(** The calls a dry run may make. *)
Definition connect_or_close (config : config) (c : smtp_call) : Prop :=
  c = Connect (host (smtp config)) (port (smtp config)) ∨ c = Close.

(** The line that the handler prints, if the [try] block ended in an
    [smtplib.SMTPException]. *)
Definition handler (r : reply) : list action :=
  match r with
  | SMTPException repr => [borked repr]
  | _ => []
  end.

(** The actions of the [try] block after the connection is made: in a dry
    run it prints, otherwise it greets the server, logs in, and announces,
    sends, confirms and sleeps for each pair. *)
Definition session_action (dry_run : bool) (a : action) : Prop :=
  match a with
  | Say line => if dry_run then True else line = "[OK]"
  | SayPart _ | Sleep _ | Smtp Ehlo _ | Smtp (Login _ _) _ | Smtp (Sendmail _ _ _) _ =>
      dry_run = false
  | _ => False
  end.

(** The actions of the retry loop before the e-mails are sent. *)
Definition retry_action (a : action) : Prop :=
  match a with
  | Solved _ _ _ => True
  | Say line => line = "Failed to solve, retrying..."
  | _ => False
  end.

(** The two lines printed after the loop. *)
Definition closing : list action := [Say EmptyString; Say "Finished!"].

Section messages.
Context {Rules : Type}.
Variable render : string → participant → participant → string → Rules → option string.

(** The message that [send_emails] writes for a pair: from the configured
    user to the giver, with the text that the template yields. *)
Definition message_for (config : config) (rules : Rules) (p : pair) : option message :=
  match render (user (smtp config)) (giver_of p) (receiver_of p) (email_subject config) rules with
  | Some email_body => Some (Message (user (smtp config)) (email (giver_of p)) email_body)
  | None => None
  end.

End messages.

(** ** Sample inputs *)

Definition ada := Participant "Ada"%string "ada@example.org"%string.
Definition bob := Participant "Bob"%string "bob@example.org"%string.
Definition cy := Participant "Cy"%string "cy@example.org"%string.

(** A tape on which [solve], called on three participants, hits the dead
    end twenty times in a row.  Each block [2; 1; 1; 0; 0] makes the shuffle
    swap the entries 2 and 2, then 1 and 1, which leaves the list as it is,
    and then makes the first giver draw the second entry, the second giver
    draw the first, and the third giver draw the only entry left, which is
    the third giver. *)
Definition dead_tape : tape := concat (replicate 20 [2; 1; 1; 0; 0]).

(** A store with the three sample participants and their list. *)
Definition sample_store : list Store.obj :=
  [Store.Dict ada; Store.Dict bob; Store.Dict cy; Store.List [0; 1; 2]].

(** Settings, and a template that needs nothing of the rules but the
    limit. *)
Definition sample_render (sender : string) (giver receiver : participant) (subject : string)
    (limit_dollars : nat) : option string :=
  Some (subject +:+ ": " +:+ name giver +:+ " gives to " +:+ name receiver).

Definition sample_config : config :=
  Config "Secret Santa"
    (SmtpSettings "smtp.example.org" 465 "santa@example.org" "$SMTP_PASS")
    (Participant "Tess" "tess@example.org").

(** A tape on which [solve], called on the three sample participants,
    returns at once. *)
Definition sample_tape : tape := [0; 0; 0; 0; 0].

(** * Lemmas and theorems *)

(** ** The models at work *)

(** The shuffle leaves [bob; cy; ada]; each giver then draws the head of the
    pool. *)
Example solve_three :
  solve_run [ada; bob; cy] [0; 0; 0; 0; 0] =
    (Returned [(ada, bob); (bob, cy); (cy, ada)],
     [Draw ada [bob; cy; ada] bob; Draw bob [cy; ada] cy; Draw cy [ada] ada], []).
Proof. reflexivity. Qed.

(** The shuffle leaves the list as it is, [ada] draws [bob], [bob] draws
    [ada], and [cy] is left with [cy]. *)
Example solve_three_dead_end :
  solve_run [ada; bob; cy] [2; 1; 1; 0; 0] =
    (Raised DeadEndException,
     [Draw ada [ada; bob; cy] bob; Draw bob [ada; cy] ada; Draw cy [cy] cy], []).
Proof. reflexivity. Qed.

(** A draw of the giver from a pool of two is discarded and repeated. *)
Example solve_two_redraw :
  solve_run [ada; bob] [1; 0; 0; 1; 0; 5] =
    (Returned [(ada, bob); (bob, ada)],
     [Draw ada [ada; bob] ada; Draw ada [ada; bob] ada; Draw ada [ada; bob] bob;
      Draw bob [ada] ada], [5]).
Proof. reflexivity. Qed.

(** Two participants of the same name: the loop pairs them, the paranoia
    test fails. *)
Example solve_same_name :
  solve [ada; Participant "Ada"%string "ada@example.com"%string] [1; 1; 0] =
    Raised (AssertionError "Each person should be a giver exactly once"%string).
Proof. reflexivity. Qed.

(** On the store: the copies are the objects 5 to 7 and 9 to 11, the list
    [pairs] is object 12, and the objects 0 to 3 are as before. *)
Example store_solve_three :
  Store.solve 3 sample_store [0; 0; 0; 0; 0] =
    (Returned 12,
     sample_store ++
     [Store.List [5; 6; 7]; Store.Dict ada; Store.Dict bob; Store.Dict cy;
      Store.List []; Store.Dict ada; Store.Dict bob; Store.Dict cy;
      Store.List [13; 14; 15];
      Store.List [5; 10]; Store.List [6; 11]; Store.List [7; 9]], []).
Proof. reflexivity. Qed.

Example store_solve_three_pairs :
  Store.read_pairs (Store.solve 3 sample_store [0; 0; 0; 0; 0]).1.2 12 =
    [(ada, bob); (bob, cy); (cy, ada)].
Proof. reflexivity. Qed.

(** ** The list operations *)

Section list_facts.
Context {T : Type}.
Implicit Types x l : list T.

Lemma insert_head_Permutation l j a b :
  l !! j = Some b → b :: <[j := a]> l ≡ₚ a :: l.
Proof.
  revert j. induction l as [|c l IH]; intros [|j] Hj; simplify_eq/=.
  - apply perm_swap.
  - rewrite (perm_swap c b), (IH j Hj). apply perm_swap.
Qed.

Lemma swap_Permutation x i j : swap x i j ≡ₚ x.
Proof.
  unfold swap.
  destruct (x !! i) as [xi|] eqn:Hi; [|done].
  destruct (x !! j) as [xj|] eqn:Hj; [|done].
  revert i j Hi Hj. induction x as [|c x IH]; intros [|i] [|j] Hi Hj; simplify_eq/=.
  - done.
  - by apply insert_head_Permutation.
  - by apply insert_head_Permutation.
  - by rewrite (IH i j).
Qed.

Lemma shuffle_from_Permutation i x t y t' :
  shuffle_from i x t = Some (y, t') → y ≡ₚ x.
Proof.
  revert x t. induction i as [|i IH]; intros x t H; simpl in H.
  - by simplify_eq.
  - destruct t as [|k t]; [done|].
    apply IH in H. by rewrite H, swap_Permutation.
Qed.

Lemma shuffle_Permutation x t y t' : shuffle x t = Some (y, t') → y ≡ₚ x.
Proof. apply shuffle_from_Permutation. Qed.

Lemma shuffle_from_enough i x t :
  i ≤ length t → is_Some (shuffle_from i x t).
Proof.
  revert x t. induction i as [|i IH]; intros x t Hle; simpl; [by eexists|].
  destruct t as [|k t]; simpl in Hle; [lia|]. apply IH. lia.
Qed.

Lemma choice_elem_of l k a : choice l k = Some a → a ∈ l.
Proof. unfold choice. apply list_elem_of_lookup_2. Qed.

Lemma choice_is_Some l k : l ≠ [] → is_Some (choice l k).
Proof.
  intros Hl. unfold choice. apply lookup_lt_is_Some.
  apply Nat.mod_upper_bound. by destruct l.
Qed.

Lemma choice_singleton (a : T) k : choice [a] k = Some a.
Proof. unfold choice. change (length [a]) with 1. by rewrite Nat.mod_1_r. Qed.
End list_facts.

Lemma remove_Permutation x l l' : remove x l = Some l' → l ≡ₚ x :: l'.
Proof.
  revert l'. induction l as [|y l IH]; intros l' H; simpl in H; [done|].
  destruct (decide (y = x)) as [->|Hne]; [by simplify_eq|].
  destruct (remove x l) as [r|]; [|done]. simplify_eq.
  rewrite (IH r eq_refl). apply perm_swap.
Qed.

Lemma remove_is_Some x l : x ∈ l → is_Some (remove x l).
Proof.
  induction l as [|y l IH]; intros Hin; [by apply elem_of_nil in Hin|].
  simpl. destruct (decide (y = x)) as [->|Hne]; [by eexists|].
  apply elem_of_cons in Hin as [->|Hin]; [done|].
  destruct (IH Hin) as [r ->]. by eexists.
Qed.

Lemma remove_length x l l' : remove x l = Some l' → length l = S (length l').
Proof. intros H. apply remove_Permutation in H. by rewrite H. Qed.

(** ** How the loops of the matcher end *)

Lemma no_dead_app ds1 ds2 : no_dead ds1 → no_dead ds2 → no_dead (ds1 ++ ds2).
Proof. unfold no_dead. rewrite Forall_app. auto. Qed.

Lemma pick_inv giver receivers t o ds t' :
  pick giver receivers t = (o, ds, t') → pick_ends giver receivers o ds.
Proof.
  revert o ds t'. induction t as [|k t IH]; intros o ds t' H; simpl in H.
  { simplify_eq. constructor. constructor. }
  destruct (choice receivers k) as [r|] eqn:Hk.
  - destruct (decide (r = giver)) as [->|Hne].
    + destruct (decide (length receivers = 1)) as [Hlen|Hlen].
      * assert (receivers = [giver]) as ->.
        { destruct receivers as [|a [|??]]; try done.
          rewrite choice_singleton in Hk. by simplify_eq. }
        simplify_eq. apply (pick_dead_end _ _ []); [done|constructor].
      * destruct (pick giver receivers t) as [[o1 ds1] t1] eqn:Hrec. simplify_eq.
        assert (¬ dead_end (Draw giver receivers giver)) as Hnd
          by (intros [_ ?]; simpl in *; done).
        specialize (IH _ _ _ eq_refl).
        inversion IH; subst.
        -- constructor; [done..|]. by constructor.
        -- rewrite app_comm_cons. constructor; [done|]. by constructor.
        -- done.
        -- constructor. by constructor.
    + simplify_eq. constructor; [by eapply choice_elem_of|done|].
      constructor; [|constructor]. intros [? _]. simpl in *. done.
  - simplify_eq. constructor.
    destruct receivers as [|a l]; [done|].
    by destruct (choice_is_Some (a :: l) k) as [? ?]; simplify_eq.
Qed.

Lemma pair_up_inv givers receivers pairs t o ds t' :
  length receivers = length givers →
  pair_up givers receivers pairs t = (o, ds, t') →
  pair_up_ends givers receivers pairs o ds.
Proof.
  revert receivers pairs t o ds t'.
  induction givers as [|giver givers IH]; intros receivers pairs t o ds t' Hlen H;
    simpl in H.
  { simplify_eq. destruct receivers; [|done].
    rewrite <-(app_nil_r pairs) at 2. by constructor; try constructor. }
  destruct (pick giver receivers t) as [[o1 ds1] t1] eqn:Hpick.
  apply pick_inv in Hpick.
  inversion Hpick as [r ds0 Hin Hne Hnd| ds0 Hone Hnd | Hnil | ds0 Hnd]; subst.
  - destruct (remove_is_Some r receivers Hin) as [receivers' Hrem].
    rewrite Hrem in H.
    destruct (pair_up givers receivers' (pairs ++ [(giver, r)]) t1)
      as [[o2 ds2] t2] eqn:Hrec. simplify_eq.
    pose proof (remove_Permutation _ _ _ Hrem) as Hperm.
    apply IH in Hrec; [|apply remove_length in Hrem; simpl in Hlen; lia].
    inversion Hrec as [new ds' Hg Hr Hd Hnd'| new g ds' Hg Hr Hd Hnd' | ds' Hnd']; subst.
    + rewrite <-app_assoc. simpl. constructor.
      * done.
      * simpl. by rewrite Hperm, Hr.
      * constructor; [|done]. simpl. done.
      * by apply no_dead_app.
    + rewrite app_assoc. apply (pair_up_dead_end _ _ _ ((giver, r) :: new)).
      * done.
      * simpl. by rewrite Hperm, Hr.
      * constructor; [|done]. simpl. done.
      * by apply no_dead_app.
    + constructor. by apply no_dead_app.
  - simplify_eq. destruct givers; [|done].
    by apply (pair_up_dead_end _ _ _ []).
  - by simplify_eq.
  - simplify_eq. by constructor.
Qed.

(** ** The paranoia test *)

Lemma times_cons n q l :
  times n (q :: l) = (if decide (name q = n) then 1 else 0) + times n l.
Proof.
  unfold times. destruct (decide (name q = n)) as [Heq|Hne].
  - by rewrite filter_cons_True.
  - by rewrite filter_cons_False.
Qed.

Lemma times_Permutation n l l' : l ≡ₚ l' → times n l = times n l'.
Proof. unfold times. by intros ->. Qed.

Lemma times_pos q l : q ∈ l → 0 < times (name q) l.
Proof.
  induction l as [|a l IH]; intros Hin; [by apply elem_of_nil in Hin|].
  rewrite times_cons. apply elem_of_cons in Hin as [->|Hin].
  - rewrite decide_True by done. lia.
  - specialize (IH Hin). lia.
Qed.

Lemma times_0 n l : n ∉ name <$> l → times n l = 0.
Proof.
  induction l as [|a l IH]; intros Hn; [done|].
  rewrite times_cons. rewrite fmap_cons, not_elem_of_cons in Hn.
  destruct Hn as [Hne Hn]. rewrite decide_False by done. by rewrite IH.
Qed.

(** Names are pairwise distinct exactly when every listed name occurs once. *)
Lemma NoDup_names_times l :
  NoDup (name <$> l) ↔ Forall (λ q, times (name q) l = 1) l.
Proof.
  induction l as [|a l IH].
  { split; intros; constructor. }
  rewrite fmap_cons, NoDup_cons, Forall_cons, IH, !Forall_forall.
  rewrite times_cons, decide_True by done.
  split.
  - intros [Ha Hl]. split; [by rewrite times_0|].
    intros q Hq. rewrite times_cons, (Hl q Hq).
    destruct (decide (name a = name q)) as [Heq|]; [|done].
    destruct Ha. rewrite Heq. by apply list_elem_of_fmap_2.
  - intros [Ha Hl]. split.
    + intros (q & Hn & Hq)%list_elem_of_fmap.
      pose proof (times_pos q l Hq) as Hpos. rewrite <-Hn in Hpos. lia.
    + intros q Hq. specialize (Hl q Hq). rewrite times_cons in Hl.
      pose proof (times_pos q l Hq). destruct (decide (name a = name q)); lia.
Qed.

Lemma NoDup_names_inj l q1 q2 :
  NoDup (name <$> l) → q1 ∈ l → q2 ∈ l → name q1 = name q2 → q1 = q2.
Proof.
  induction l as [|a l IH]; intros Hnd H1 H2 Hn; [by apply elem_of_nil in H1|].
  rewrite fmap_cons, NoDup_cons in Hnd. destruct Hnd as [Ha Hnd].
  apply elem_of_cons in H1 as [->|H1]; apply elem_of_cons in H2 as [->|H2].
  - done.
  - destruct Ha. rewrite Hn. by apply list_elem_of_fmap_2.
  - destruct Ha. rewrite <-Hn. by apply list_elem_of_fmap_2.
  - by apply IH.
Qed.

Lemma NoDup_names l : NoDup (name <$> l) → NoDup l.
Proof. apply NoDup_fmap_1. Qed.

Lemma tally_spec person pairs giveCount receiveCount :
  tally person pairs giveCount receiveCount =
    (giveCount + times (name person) pairs.*1,
     receiveCount + times (name person) pairs.*2).
Proof.
  revert giveCount receiveCount.
  induction pairs as [|[g r] pairs IH]; intros giveCount receiveCount; cbn [tally].
  { unfold times. simpl. f_equal; lia. }
  rewrite IH, !fmap_cons, !times_cons. unfold giver_of, receiver_of. cbn [fst snd].
  destruct (String.eqb_spec (name g) (name person));
    destruct (String.eqb_spec (name r) (name person));
    repeat case_decide; try done; f_equal; lia.
Qed.

(** The test passes exactly when every participant's name is counted once
    among the givers and once among the receivers. *)
Lemma paranoia_None participants pairs :
  paranoia participants pairs = None ↔
  Forall (λ person, times (name person) pairs.*1 = 1
                    ∧ times (name person) pairs.*2 = 1) participants.
Proof.
  induction participants as [|person l IH]; simpl.
  { split; intros; constructor || done. }
  rewrite tally_spec, Forall_cons, <-IH. simpl.
  destruct (Nat.eqb_spec (times (name person) pairs.*1) 1) as [Hg|Hg]; simpl.
  - destruct (Nat.eqb_spec (times (name person) pairs.*2) 1) as [Hr|Hr]; simpl.
    + tauto.
    + split; [done|tauto].
  - split; [done|tauto].
Qed.

Lemma paranoia_Some participants pairs e :
  paranoia participants pairs = Some e → ∃ msg, e = AssertionError msg.
Proof.
  induction participants as [|person l IH]; simpl; [done|].
  rewrite tally_spec.
  destruct (negb _); [intros; simplify_eq; by eexists|].
  destruct (negb _); [intros; simplify_eq; by eexists|]. done.
Qed.

(** On a list of pairs whose givers are the participants, in order, and
    whose receivers are the participants in some order, the test passes
    exactly when the names are pairwise distinct. *)
Lemma paranoia_NoDup participants pairs :
  pairs.*1 = participants → pairs.*2 ≡ₚ participants →
  paranoia participants pairs = None ↔ NoDup (name <$> participants).
Proof.
  intros Hg Hr. rewrite paranoia_None, NoDup_names_times, Hg.
  apply Forall_iff. intros person. rewrite (times_Permutation _ _ _ Hr). tauto.
Qed.

(** ** How a run of [solve] ends *)

Lemma solve_run_inv participants t o ds t' :
  solve_run participants t = (o, ds, t') → solve_ends participants o ds.
Proof.
  unfold solve_run. intros H.
  destruct (shuffle participants t) as [[receivers t1]|] eqn:Hsh.
  2: { simplify_eq. constructor. constructor. }
  pose proof (shuffle_Permutation _ _ _ _ Hsh) as Hperm.
  destruct (pair_up participants receivers [] t1) as [[o1 ds1] t2] eqn:Hpu.
  apply pair_up_inv in Hpu; [|by rewrite Hperm].
  inversion Hpu as [new ds' Hg Hr Hd Hnd| new g ds' Hg Hr Hd Hnd | ds' Hnd]; subst.
  - simpl in H.
    assert (new.*2 ≡ₚ new.*1) as Hr' by (by rewrite Hr, Hperm).
    destruct (paranoia new.*1 new) as [e|] eqn:Hpar.
    + simplify_eq. destruct (paranoia_Some _ _ _ Hpar) as [msg ->].
      constructor; [|done]. rewrite <-paranoia_NoDup by done. by rewrite Hpar.
    + simplify_eq. constructor; try done. by rewrite <-paranoia_NoDup.
  - simplify_eq. apply (solve_dead_end _ new); try done. by rewrite Hr.
  - simplify_eq. by constructor.
Qed.

Lemma solve_inv participants t :
  solve_ends participants (solve participants t) (draws participants t).
Proof.
  unfold solve, draws.
  destruct (solve_run participants t) as [[o ds] t'] eqn:H.
  by apply solve_run_inv in H.
Qed.

Lemma no_dead_Exists ds : no_dead ds → ¬ Exists dead_end ds.
Proof. unfold no_dead. rewrite <-Forall_Exists_neg. done. Qed.

(** In a run of [solve] only the last draw can meet the dead-end condition. *)
Lemma dead_end_is_last participants o ds ds1 d ds2 :
  solve_ends participants o ds → ds = ds1 ++ d :: ds2 → dead_end d → ds2 = [].
Proof.
  assert (∀ l a b, no_dead l → l = a ++ d :: b → dead_end d → False) as Hno.
  { intros l a b Hl -> Hd. unfold no_dead in Hl.
    rewrite Forall_app, Forall_cons in Hl. tauto. }
  intros Hends Heq Hd.
  destruct Hends as [pairs ds _ _ _ _ Hnd | new g ds _ _ _ Hnd | msg ds _ Hnd | ds Hnd];
    try (exfalso; by eapply Hno).
  destruct ds2 as [|d2 ds2 _] using rev_ind; [done|]. exfalso.
  rewrite app_comm_cons, app_assoc in Heq.
  apply app_inj_tail in Heq as [-> _]. by eapply Hno.
Qed.

(** ** Counting givers and receivers *)

Lemma gives_occurrences p pairs : gives p pairs = occurrences p pairs.*1.
Proof.
  unfold gives, occurrences, giver_of. induction pairs as [|[g r] pairs IH]; [done|].
  rewrite fmap_cons. cbn [fst]. destruct (decide (g = p)).
  - rewrite !filter_cons_True by done. simpl. by rewrite IH.
  - by rewrite !filter_cons_False by done.
Qed.

Lemma receives_occurrences p pairs : receives p pairs = occurrences p pairs.*2.
Proof.
  unfold receives, occurrences, receiver_of. induction pairs as [|[g r] pairs IH]; [done|].
  rewrite fmap_cons. cbn [snd]. destruct (decide (r = p)).
  - rewrite !filter_cons_True by done. simpl. by rewrite IH.
  - by rewrite !filter_cons_False by done.
Qed.

Lemma occurrences_cons p q l :
  occurrences p (q :: l) = (if decide (q = p) then 1 else 0) + occurrences p l.
Proof.
  unfold occurrences. destruct (decide (q = p)).
  - by rewrite filter_cons_True.
  - by rewrite filter_cons_False.
Qed.

Lemma occurrences_0 p l : p ∉ l → occurrences p l = 0.
Proof.
  induction l as [|a l IH]; [done|]. rewrite not_elem_of_cons. intros [Hne Hl].
  rewrite occurrences_cons, decide_False, IH; done.
Qed.

Lemma occurrences_NoDup p l : NoDup l → p ∈ l → occurrences p l = 1.
Proof.
  induction l as [|a l IH]; intros Hnd Hin.
  { by apply elem_of_nil in Hin. }
  apply NoDup_cons in Hnd as [Ha Hnd]. rewrite occurrences_cons.
  destruct (decide (a = p)) as [->|Hne].
  - by rewrite occurrences_0.
  - apply elem_of_cons in Hin as [->|Hin]; [done|]. by rewrite IH.
Qed.

Lemma occurrences_Permutation p l l' : l ≡ₚ l' → occurrences p l = occurrences p l'.
Proof. unfold occurrences. by intros ->. Qed.

(** ** The part of the tape that a run reads *)

Lemma pick_reads giver receivers t o ds t' :
  pick giver receivers t = (o, ds, t') → terminated o →
  ∃ c, t = c ++ t' ∧ ∀ u, pick giver receivers (c ++ u) = (o, ds, u).
Proof.
  revert o ds t'. induction t as [|k t IH]; intros o ds t' H Ht; simpl in H.
  { by simplify_eq. }
  destruct (choice receivers k) as [r|] eqn:Hk.
  - destruct (decide (r = giver)) as [->|Hne].
    + destruct (decide (length receivers = 1)) as [Hlen|Hlen].
      * simplify_eq. exists [k]. split; [done|]. intros u. simpl.
        by rewrite Hk, !decide_True.
      * destruct (pick giver receivers t) as [[o1 ds1] t1] eqn:Hrec. simplify_eq.
        destruct (IH _ _ _ eq_refl Ht) as (c & -> & Hc).
        exists (k :: c). split; [done|]. intros u. simpl.
        by rewrite Hk, decide_True, decide_False, Hc.
    + simplify_eq. exists [k]. split; [done|]. intros u. simpl.
      by rewrite Hk, decide_False.
  - simplify_eq. exists [k]. split; [done|]. intros u. simpl. by rewrite Hk.
Qed.

Lemma pair_up_reads givers receivers pairs t o ds t' :
  pair_up givers receivers pairs t = (o, ds, t') → terminated o →
  ∃ c, t = c ++ t' ∧ ∀ u, pair_up givers receivers pairs (c ++ u) = (o, ds, u).
Proof.
  revert receivers pairs t o ds t'.
  induction givers as [|giver givers IH]; intros receivers pairs t o ds t' H Ht;
    simpl in H.
  { simplify_eq. by exists []. }
  destruct (pick giver receivers t) as [[[r|e|] ds1] t1] eqn:Hpick.
  - destruct (pick_reads _ _ _ _ _ _ Hpick I) as (c1 & -> & Hc1).
    destruct (remove r receivers) as [receivers'|] eqn:Hrem.
    + destruct (pair_up givers receivers' (pairs ++ [(giver, r)]) t1)
        as [[o2 ds2] t2] eqn:Hrec. simplify_eq.
      destruct (IH _ _ _ _ _ _ Hrec Ht) as (c2 & -> & Hc2).
      exists (c1 ++ c2). split; [by rewrite app_assoc|]. intros u. simpl.
      by rewrite <-app_assoc, Hc1, Hrem, Hc2.
    + simplify_eq. exists c1. split; [done|]. intros u. simpl. by rewrite Hc1, Hrem.
  - destruct (pick_reads _ _ _ _ _ _ Hpick I) as (c1 & -> & Hc1). simplify_eq.
    exists c1. split; [done|]. intros u. simpl. by rewrite Hc1.
  - by simplify_eq.
Qed.

Lemma shuffle_reads {T} (x : list T) t y t' :
  shuffle x t = Some (y, t') →
  ∃ c, t = c ++ t' ∧ ∀ u, shuffle x (c ++ u) = Some (y, u).
Proof.
  unfold shuffle. generalize (length x - 1). intros i. revert x t.
  induction i as [|i IH]; intros x t H; simpl in H.
  { simplify_eq. by exists []. }
  destruct t as [|k t]; [done|].
  destruct (IH _ _ H) as (c & -> & Hc). exists (k :: c). split; [done|].
  intros u. simpl. apply Hc.
Qed.

(** A run that ends has read a prefix [c] of its tape, and it ends the same
    way on every tape that starts with [c]. *)
Lemma solve_run_reads participants t o ds t' :
  solve_run participants t = (o, ds, t') → terminated o →
  ∃ c, t = c ++ t' ∧ ∀ u, solve_run participants (c ++ u) = (o, ds, u).
Proof.
  unfold solve_run. intros H Ht.
  destruct (shuffle participants t) as [[receivers t1]|] eqn:Hsh; [|by simplify_eq].
  destruct (shuffle_reads _ _ _ _ Hsh) as (c1 & -> & Hc1).
  destruct (pair_up participants receivers [] t1) as [[o1 ds1] t2] eqn:Hpu.
  assert (terminated o1) as Ht1.
  { destruct o1; [done|done|]. by simplify_eq. }
  destruct (pair_up_reads _ _ _ _ _ _ _ Hpu Ht1) as (c2 & -> & Hc2).
  exists (c1 ++ c2). split.
  - rewrite <-app_assoc. do 2 f_equal. destruct o1 as [pairs|e|]; [|by simplify_eq..].
    destruct (paranoia participants pairs); by simplify_eq.
  - intros u. rewrite <-app_assoc, Hc1, Hc2.
    destruct o1 as [pairs|e|]; [|by simplify_eq..].
    destruct (paranoia participants pairs); by simplify_eq.
Qed.

(** ** Every run can be continued to an end *)

Lemma NoDup_escapable giver receivers :
  NoDup receivers → receivers ≠ [] → escapable giver receivers.
Proof.
  intros Hnd Hne. destruct receivers as [|a [|b l]]; [done|by left|right].
  apply NoDup_cons in Hnd as [[Hab _]%not_elem_of_cons _].
  destruct (decide (a = giver)) as [Heq|Ha].
  - exists b. split; [|congruence]. apply elem_of_cons. right. apply elem_of_cons. by left.
  - exists a. split; [|done]. apply elem_of_cons. by left.
Qed.

Lemma pick_can_end giver receivers :
  escapable giver receivers → ∃ k, ∀ u, terminated (pick giver receivers (k :: u)).1.1.
Proof.
  intros [Hone|(r & Hin & Hne)].
  - exists 0. intros u. destruct receivers as [|a [|??]]; try done. cbn [pick].
    rewrite choice_singleton. destruct (decide (a = giver)); [|done].
    by rewrite decide_True.
  - apply list_elem_of_lookup_1 in Hin as [i Hi].
    exists i. intros u. cbn [pick]. unfold choice.
    rewrite Nat.mod_small by (by eapply lookup_lt_Some).
    rewrite Hi. by rewrite decide_False.
Qed.

Lemma pick_progress giver receivers t :
  escapable giver receivers → ∃ u, terminated (pick giver receivers (t ++ u)).1.1.
Proof.
  intros Hesc. induction t as [|k t [u IH]].
  { destruct (pick_can_end _ _ Hesc) as [k Hk]. exists [k]. apply Hk. }
  exists u. simpl. destruct (choice receivers k) as [r|]; [|done].
  destruct (decide (r = giver)); [|done].
  destruct (decide (length receivers = 1)); [done|].
  by destruct (pick giver receivers (t ++ u)) as [[??]?].
Qed.

Lemma pair_up_progress givers receivers pairs t :
  NoDup receivers → length receivers = length givers →
  ∃ u, terminated (pair_up givers receivers pairs (t ++ u)).1.1.
Proof.
  revert receivers pairs t.
  induction givers as [|giver givers IH]; intros receivers pairs t Hnd Hlen.
  { by exists []. }
  assert (escapable giver receivers) as Hesc.
  { apply NoDup_escapable; [done|]. by destruct receivers. }
  destruct (pick_progress giver receivers t Hesc) as [u1 Hu1].
  destruct (pick giver receivers (t ++ u1)) as [[o1 ds1] t1] eqn:Hpick.
  simpl in Hu1. destruct (pick_reads _ _ _ _ _ _ Hpick Hu1) as (c & Hc & Hread).
  pose proof (pick_inv _ _ _ _ _ _ Hpick) as Hends.
  destruct o1 as [r|e|]; [| |done].
  - inversion Hends as [? ? Hin Hne _| | |]; subst.
    destruct (remove_is_Some r receivers Hin) as [receivers' Hrem].
    pose proof (remove_Permutation _ _ _ Hrem) as Hperm.
    destruct (IH receivers' (pairs ++ [(giver, r)]) t1) as [u2 Hu2].
    { rewrite Hperm in Hnd. by apply NoDup_cons in Hnd as [_ ?]. }
    { apply remove_length in Hrem. simpl in Hlen. lia. }
    exists (u1 ++ u2). rewrite app_assoc, Hc, <-app_assoc. simpl.
    rewrite Hread, Hrem.
    by destruct (pair_up givers receivers' _ (t1 ++ u2)) as [[??]?].
  - exists u1. simpl. by rewrite Hpick.
Qed.

(** When the names are pairwise distinct, every tape can be extended to one
    on which [solve] ends. *)
Lemma solve_progress participants t :
  NoDup (name <$> participants) → ∃ u, terminated (solve participants (t ++ u)).
Proof.
  intros Hnd%NoDup_names.
  destruct (shuffle_from_enough (length participants - 1) participants
              (t ++ replicate (length participants - 1) 0)) as [[receivers t1] Hsh].
  { rewrite length_app, length_replicate. lia. }
  fold (shuffle participants (t ++ replicate (length participants - 1) 0)) in Hsh.
  pose proof (shuffle_Permutation _ _ _ _ Hsh) as Hperm.
  destruct (shuffle_reads _ _ _ _ Hsh) as (c & Hc & Hread).
  destruct (pair_up_progress participants receivers [] t1) as [u Hu].
  { by rewrite Hperm. }
  { by rewrite Hperm. }
  exists (replicate (length participants - 1) 0 ++ u).
  unfold solve, solve_run. rewrite app_assoc, Hc, <-app_assoc, Hread.
  destruct (pair_up participants receivers [] (t1 ++ u)) as [[[pairs|e|] ds] t2];
    [|done..].
  by destruct (paranoia participants pairs).
Qed.

(** ** Properties of the matcher *)

(** C2, two participants.  For two participants [a] and [b] with distinct
    names [solve] never raises: a run either returns the pairing of [a] with
    [b] and of [b] with [a], or it is still drawing when the tape ends.  And
    every tape can be extended to one on which [solve] returns: the run
    returns as soon as the stream yields a draw that takes it out of the
    loop. *)
Theorem solve_two (a b : participant) :
  name a ≠ name b →
  (∀ t, solve [a; b] t = Returned [(a, b); (b, a)] ∨ solve [a; b] t = Starved) ∧
  (∀ t, ∃ u, solve [a; b] (t ++ u) = Returned [(a, b); (b, a)]).
Proof.
  intros Hab.
  assert (a ≠ b) as Hne by (by intros ->).
  assert (NoDup (name <$> [a; b])) as Hnd.
  { simpl. apply NoDup_cons. split; [|apply NoDup_singleton].
    by rewrite list_elem_of_singleton. }
  assert (∀ t, solve [a; b] t = Returned [(a, b); (b, a)] ∨ solve [a; b] t = Starved)
    as Hall.
  { intros t. pose proof (solve_inv [a; b] t) as Hends.
    destruct Hends as [pairs ds Hg Hr Hself _ _ | new g ds Hg Hr Hself _
                      | msg ds Hdup _ | ds _]; [left|exfalso|done|by right].
    - destruct pairs as [|[g1 r1] [|[g2 r2] [|??]]]; simplify_eq/=.
      rewrite !Forall_cons in Hself. destruct Hself as (H1 & H2 & _).
      unfold giver_of, receiver_of in *. simpl in *.
      assert (r1 ∈ [a; b]) as Hr1 by (rewrite <-Hr; apply elem_of_cons; by left).
      assert (r2 ∈ [a; b]) as Hr2
        by (rewrite <-Hr; apply elem_of_cons; right; apply elem_of_cons; by left).
      rewrite !elem_of_cons, elem_of_nil in Hr1, Hr2.
      by destruct Hr1 as [->|[->|[]]], Hr2 as [->|[->|[]]].
    - destruct new as [|[g1 r1] [|[g2 r2] new]]; simplify_eq/=;
        [|by destruct new].
      rewrite Forall_singleton in Hself. unfold giver_of, receiver_of in Hself.
      simpl in Hself.
      assert (a ∈ [r1; b]) as Ha by (rewrite Hr; apply elem_of_cons; by left).
      rewrite !elem_of_cons, elem_of_nil in Ha. by destruct Ha as [->|[->|[]]]. }
  split; [done|].
  intros t. destruct (solve_progress [a; b] t Hnd) as [u Hu]. exists u.
  destruct (Hall (t ++ u)) as [Hret|Hst]; [done|]. by rewrite Hst in Hu.
Qed.

Lemma solve_two_witness :
  name ada ≠ name bob
  ∧ (∀ t, solve [ada; bob] t = Returned [(ada, bob); (bob, ada)]
          ∨ solve [ada; bob] t = Starved)
  ∧ (∀ t, ∃ u, solve [ada; bob] (t ++ u) = Returned [(ada, bob); (bob, ada)]).
Proof.
  assert (name ada ≠ name bob) as Hne by (vm_compute; discriminate).
  split; [exact Hne|]. exact (solve_two ada bob Hne).
Defined.

(** C3, completeness.  Whenever [solve] returns, the list has one pair per
    participant, the givers are the participants in their order, the
    receivers are the participants in some order, and every participant
    gives in exactly one pair and receives in exactly one pair.  This holds
    for every input on which [solve] returns, whatever its size: a list is
    returned only after the paranoia test has passed, and the test passes
    only when the names are pairwise distinct. *)
Theorem solve_complete (participants : list participant) (t : tape) (pairs : list pair) :
  solve participants t = Returned pairs →
  length pairs = length participants ∧
  pairs.*1 = participants ∧ pairs.*2 ≡ₚ participants ∧
  ∀ p, p ∈ participants → gives p pairs = 1 ∧ receives p pairs = 1.
Proof.
  intros H. pose proof (solve_inv participants t) as Hends. rewrite H in Hends.
  inversion Hends as [? ds Hg Hr _ Hnd _| | |]; subst.
  split_and!; [by rewrite length_fmap|done|done|].
  intros p Hp. rewrite gives_occurrences, receives_occurrences.
  rewrite (occurrences_Permutation p _ _ Hr).
  apply NoDup_names in Hnd. by rewrite !occurrences_NoDup.
Qed.

Lemma solve_complete_witness :
  solve [ada; bob; cy] [0; 0; 0; 0; 0] = Returned [(ada, bob); (bob, cy); (cy, ada)]
  ∧ (length [(ada, bob); (bob, cy); (cy, ada)] = 3
     ∧ gives bob [(ada, bob); (bob, cy); (cy, ada)] = 1).
Proof.
  split; [reflexivity|].
  destruct (solve_complete [ada; bob; cy] [0; 0; 0; 0; 0]
              [(ada, bob); (bob, cy); (cy, ada)] eq_refl) as (Hlen & _ & _ & Hp).
  split; [exact Hlen|]. apply Hp. apply elem_of_cons. right. apply elem_of_cons. by left.
Defined.

(** C4, no self-pairing.  In every pair of a returned list the giver and the
    receiver differ: as records, which is the comparison [receiver == giver]
    of the loop, and also by name, which is the comparison of the paranoia
    test. *)
Theorem solve_no_self_pairing (participants : list participant) (t : tape) (pairs : list pair)
    (g r : participant) :
  solve participants t = Returned pairs → (g, r) ∈ pairs → g ≠ r ∧ name g ≠ name r.
Proof.
  intros H Hin. pose proof (solve_inv participants t) as Hends. rewrite H in Hends.
  inversion Hends as [? ds Hg Hr Hne Hnd _| | |]; subst.
  rewrite Forall_forall in Hne. pose proof (Hne _ Hin) as Hgr.
  unfold giver_of, receiver_of in Hgr. simpl in Hgr.
  split; [done|]. intros Hn. apply Hgr.
  apply (NoDup_names_inj pairs.*1); [done| | |done].
  - by apply (list_elem_of_fmap_2 fst) in Hin.
  - rewrite <-Hr. by apply (list_elem_of_fmap_2 snd) in Hin.
Qed.

Lemma solve_no_self_pairing_witness :
  solve [ada; bob; cy] [0; 0; 0; 0; 0] = Returned [(ada, bob); (bob, cy); (cy, ada)]
  ∧ (bob, cy) ∈ [(ada, bob); (bob, cy); (cy, ada)]
  ∧ (bob ≠ cy ∧ name bob ≠ name cy).
Proof.
  assert ((bob, cy) ∈ [(ada, bob); (bob, cy); (cy, ada)]) as Hin
    by (apply elem_of_cons; right; apply elem_of_cons; by left).
  split; [reflexivity|]. split; [exact Hin|].
  exact (solve_no_self_pairing [ada; bob; cy] [0; 0; 0; 0; 0] _ bob cy eq_refl Hin).
Defined.

(** C5, the dead end.  [solve] raises [DeadEndException] exactly when one of
    its draws yields the current giver from a pool of length one.  Such a
    draw is the last draw of the run: nothing is drawn for a later giver.
    The exception carries no pairs, and a list that is returned is never
    partial: it has a pair for every participant. *)
Theorem solve_dead_end_iff (participants : list participant) (t : tape) :
  (solve participants t = Raised DeadEndException ↔ Exists dead_end (draws participants t)) ∧
  (∀ ds1 d ds2, draws participants t = ds1 ++ d :: ds2 → dead_end d → ds2 = []) ∧
  (∀ pairs, solve participants t = Returned pairs → pairs.*1 = participants).
Proof.
  pose proof (solve_inv participants t) as Hends. split_and!.
  - split.
    + intros H. rewrite H in Hends. inversion Hends as [| new g ds _ _ _ Hnd Hds | |].
      apply Exists_app. right. by constructor.
    + intros Hex. destruct Hends as [pairs ds _ _ _ _ Hnd | | msg ds _ Hnd | ds Hnd];
        try done; by apply no_dead_Exists in Hnd.
  - intros ds1 d ds2. by eapply dead_end_is_last.
  - intros pairs H. rewrite H in Hends. by inversion Hends.
Qed.

(** C7, the paranoia test.  When the names are pairwise distinct no run of
    [solve] ends in an assertion failure, and the test passes again on every
    list that [solve] returns.  The size of the input plays no role. *)
Theorem paranoia_never_fails (participants : list participant) (t : tape) :
  NoDup (name <$> participants) →
  (∀ msg, solve participants t ≠ Raised (AssertionError msg)) ∧
  (∀ pairs, solve participants t = Returned pairs → paranoia participants pairs = None).
Proof.
  intros Hnd. pose proof (solve_inv participants t) as Hends. split.
  - intros msg H. rewrite H in Hends. by inversion Hends.
  - intros pairs H. rewrite H in Hends.
    inversion Hends as [? ds Hg Hr _ _ _| | |]; subst.
    by apply paranoia_NoDup.
Qed.

Lemma paranoia_never_fails_witness :
  NoDup (name <$> [ada; bob; cy]) ∧
  (∀ msg, solve [ada; bob; cy] [0; 0; 0; 0; 0] ≠ Raised (AssertionError msg)) ∧
  (∀ pairs, solve [ada; bob; cy] [0; 0; 0; 0; 0] = Returned pairs →
            paranoia [ada; bob; cy] pairs = None).
Proof.
  assert (NoDup (name <$> [ada; bob; cy])) as Hnd by compute_done.
  split; [exact Hnd|]. exact (paranoia_never_fails [ada; bob; cy] [0; 0; 0; 0; 0] Hnd).
Defined.

(** C9, determinism under fixed randomness.  If a run of [solve] reads the
    numbers [c] and ends, then every run on the same participants that is
    given the same numbers [c] first ends in the same way, after the same
    draws, having read [c] and nothing more: it returns the identical list
    of pairs or raises at the identical draw. *)
Theorem solve_deterministic (participants : list participant) (c t1 t2 : tape)
    (o : outcome (list pair)) (ds : list draw) :
  solve_run participants (c ++ t1) = (o, ds, t1) → terminated o →
  solve_run participants (c ++ t2) = (o, ds, t2).
Proof.
  intros H Ht. destruct (solve_run_reads _ _ _ _ _ H Ht) as (c' & Heq & Hc').
  apply app_inv_tail in Heq as ->. apply Hc'.
Qed.

Lemma solve_deterministic_witness :
  solve_run [ada; bob; cy] ([2; 1; 1; 0; 0] ++ [7; 7]) =
    (Raised DeadEndException,
     [Draw ada [ada; bob; cy] bob; Draw bob [ada; cy] ada; Draw cy [cy] cy], [7; 7])
  ∧ terminated (Raised DeadEndException : outcome (list pair))
  ∧ solve_run [ada; bob; cy] ([2; 1; 1; 0; 0] ++ [4]) =
      (Raised DeadEndException,
       [Draw ada [ada; bob; cy] bob; Draw bob [ada; cy] ada; Draw cy [cy] cy], [4]).
Proof.
  split; [reflexivity|]. split; [exact I|].
  exact (solve_deterministic [ada; bob; cy] [2; 1; 1; 0; 0] [7; 7] [4] _ _ eq_refl I).
Defined.

(** C10, inputs below the precondition.  On the empty list [solve] returns
    the empty list and reads no random number.  On a list of one participant
    the single draw raises [DeadEndException], whatever number is drawn, and
    no tape makes [solve] return. *)
Theorem solve_below_precondition :
  (∀ t, solve [] t = Returned [] ∧ rest [] t = t) ∧
  (∀ p k t, solve [p] (k :: t) = Raised DeadEndException) ∧
  (∀ p t pairs, solve [p] t ≠ Returned pairs).
Proof.
  assert (∀ p k t, solve [p] (k :: t) = Raised DeadEndException) as Hone.
  { intros p k t. unfold solve, solve_run, shuffle. cbn [length Nat.sub shuffle_from].
    cbn [pair_up pick]. rewrite choice_singleton.
    rewrite decide_True by done. by rewrite decide_True by done. }
  split_and!; [done|done|].
  intros p [|k t] pairs; [done|]. by rewrite Hone.
Qed.

(** ** Properties of the retry loop *)

Lemma calls_after evs r : calls (events (after evs r)) = calls evs ++ calls (events r).
Proof. unfold calls. simpl. apply omap_app. Qed.

Lemma sent_after evs r : sent (events (after evs r)) = sent evs ++ sent (events r).
Proof. unfold sent. simpl. apply omap_app. Qed.

Lemma retry_calls n a participants t :
  let r := retry n a participants t in
  attempts r = a + length (calls (events r)) ∧
  length (calls (events r)) ≤ n ∧
  (0 < n → retried participants t (calls (events r))) ∧
  (last (outcomes (events r)) = Some (Raised DeadEndException) →
   length (calls (events r)) = n).
Proof.
  revert a t. induction n as [|n IH]; intros a t; simpl.
  { split_and!; [lia|lia|lia|done]. }
  destruct (solve participants t) as [pairs|e|] eqn:Hsolve.
  - split_and!; simpl; [lia|lia| |done]. intros _. rewrite <-Hsolve. constructor.
  - destruct e; try (split_and!; simpl; [lia|lia| |done]; intros _;
      rewrite <-Hsolve; constructor).
    destruct (IH (a + 1) (rest participants t)) as (Hatt & Hlen & Hretried & Hlast).
    unfold outcomes in *. rewrite calls_after. simpl.
    split_and!; [lia|lia| |].
    + intros _. destruct n as [|n].
      * rewrite <-Hsolve. constructor.
      * constructor; [done|]. apply Hretried. lia.
    + destruct (calls (events (retry n (a + 1) participants (rest participants t))))
        as [|c cs] eqn:Hcalls.
      * intros _. destruct n as [|n]; [done|].
        assert (0 < S n) as Hpos by lia. apply Hretried in Hpos. inversion Hpos.
      * rewrite fmap_cons, last_cons_cons. intros Hl. simpl. f_equal. by apply Hlast.
  - split_and!; simpl; [lia|lia| |done]. intros _. rewrite <-Hsolve. constructor.
Qed.

(** A call that is followed by another call raised [DeadEndException]. *)
Lemma retried_then_dead participants t cs cs1 c cs2 :
  retried participants t cs → cs = cs1 ++ c :: cs2 → cs2 ≠ [] →
  c.2 = Raised DeadEndException.
Proof.
  intros Hcs. revert cs1. induction Hcs as [t|t cs Hdead Hcs IH]; intros cs1 Heq Hne.
  - destruct cs1 as [|? [|??]], cs2; simplify_eq/=.
  - destruct cs1 as [|c1 cs1]; simplify_eq/=; [done|]. by eapply IH.
Qed.

(** C6, the retry loop.  A run of the main loop calls [solve] once per attempt
    and at most [max_attempts = 20] times.  Every call is a call on the whole
    list of participants with the randomness that the call before it left,
    and every call that is followed by another one raised
    [DeadEndException]: after a call that returns there is no further call.
    When the last call raised [DeadEndException], all twenty attempts were
    made: as long as attempts remain, a dead end is followed by a retry. *)
Theorem main_retries (participants : list participant) (t : tape) :
  attempts (main participants t) = length (calls (events (main participants t))) ∧
  attempts (main participants t) ≤ max_attempts ∧
  retried participants t (calls (events (main participants t))) ∧
  (∀ cs1 c cs2, calls (events (main participants t)) = cs1 ++ c :: cs2 → cs2 ≠ [] →
                c.2 = Raised DeadEndException) ∧
  (last (outcomes (events (main participants t))) = Some (Raised DeadEndException) →
   attempts (main participants t) = max_attempts).
Proof.
  destruct (retry_calls max_attempts 0 participants t) as (Hatt & Hlen & Hretried & Hlast).
  fold (main participants t) in *. simpl in Hatt.
  assert (retried participants t (calls (events (main participants t)))) as Hcs
    by (apply Hretried; unfold max_attempts; lia).
  split_and!; [done|lia|done| |].
  - intros cs1 c cs2. by apply (retried_then_dead participants t).
  - intros Hl. rewrite Hatt. by apply Hlast.
Qed.

(** Three dead ends, then a run of [solve] that returns: four attempts, one
    delivery, and the closing lines. *)
Example main_fourth_attempt :
  main [ada; bob; cy] ([2; 1; 1; 0; 0] ++ [2; 1; 1; 0; 0] ++ [2; 1; 1; 0; 0] ++ [0; 0; 0; 0; 0])
  = Run 4
      [SolveCalled [ada; bob; cy]
         ([2; 1; 1; 0; 0] ++ [2; 1; 1; 0; 0] ++ [2; 1; 1; 0; 0] ++ [0; 0; 0; 0; 0])
         (Raised DeadEndException);
       Printed "Failed to solve, retrying..."%string;
       SolveCalled [ada; bob; cy] ([2; 1; 1; 0; 0] ++ [2; 1; 1; 0; 0] ++ [0; 0; 0; 0; 0])
         (Raised DeadEndException);
       Printed "Failed to solve, retrying..."%string;
       SolveCalled [ada; bob; cy] ([2; 1; 1; 0; 0] ++ [0; 0; 0; 0; 0])
         (Raised DeadEndException);
       Printed "Failed to solve, retrying..."%string;
       SolveCalled [ada; bob; cy] [0; 0; 0; 0; 0]
         (Returned [(ada, bob); (bob, cy); (cy, ada)]);
       EmailsSent [(ada, bob); (bob, cy); (cy, ada)];
       Printed ""%string; Printed "Finished!"%string]
      Finished.
Proof. reflexivity. Qed.

Lemma retry_all_dead n a participants t :
  Forall (λ o, o = Raised DeadEndException) (outcomes (events (retry n a participants t))) →
  attempts (retry n a participants t) = a + n ∧
  length (calls (events (retry n a participants t))) = n ∧
  sent (events (retry n a participants t)) = [] ∧
  final (retry n a participants t) = Finished.
Proof.
  revert a t. induction n as [|n IH]; intros a t; simpl.
  { intros _. split_and!; [lia|done..]. }
  destruct (solve participants t) as [pairs|e|] eqn:Hsolve.
  - unfold outcomes. simpl. by intros [? _]%Forall_cons.
  - destruct e; try (unfold outcomes; simpl; by intros [? _]%Forall_cons).
    unfold outcomes. rewrite calls_after, sent_after. simpl.
    intros [_ Hall]%Forall_cons. destruct (IH (a + 1) _ Hall) as (Hatt & Hlen & Hsent & Hfin).
    split_and!; [lia|lia|done|done].
  - unfold outcomes. simpl. by intros [? _]%Forall_cons.
Qed.

(** C1 as amended.  If every attempt of a run raises [DeadEndException],
    the run makes exactly [max_attempts = 20] attempts and no more, sends no
    e-mail, and then ends like any other run: it prints its last lines and
    finishes, and no exception reaches the caller. *)
Theorem main_exhausted (participants : list participant) (t : tape) :
  Forall (λ o, o = Raised DeadEndException) (outcomes (events (main participants t))) →
  attempts (main participants t) = max_attempts ∧
  length (calls (events (main participants t))) = max_attempts ∧
  sent (events (main participants t)) = [] ∧
  final (main participants t) = Finished.
Proof. apply retry_all_dead. Qed.

Lemma main_exhausted_witness :
  Forall (λ o, o = Raised DeadEndException)
    (outcomes (events (main [ada; bob; cy] dead_tape)))
  ∧ attempts (main [ada; bob; cy] dead_tape) = max_attempts
  ∧ final (main [ada; bob; cy] dead_tape) = Finished.
Proof.
  assert (Forall (λ o, o = Raised DeadEndException)
            (outcomes (events (main [ada; bob; cy] dead_tape)))) as Hall.
  { vm_compute. repeat constructor. }
  split; [exact Hall|].
  destruct (main_exhausted [ada; bob; cy] dead_tape Hall) as (Hatt & _ & _ & Hfin).
  split; [exact Hatt|exact Hfin].
Defined.

(** C1 as stated fails.  On three participants and a tape that leads every
    attempt into the dead end, all twenty attempts raise [DeadEndException],
    and yet the run finishes as a run that succeeded does: its last event is
    the line [Finished!] and no exception of any kind reaches the caller. *)
Lemma main_exhausted_not_raised :
  Forall (λ o, o = Raised DeadEndException)
    (outcomes (events (main [ada; bob; cy] dead_tape)))
  ∧ attempts (main [ada; bob; cy] dead_tape) = 20
  ∧ last (events (main [ada; bob; cy] dead_tape)) = Some (Printed "Finished!"%string)
  ∧ final (main [ada; bob; cy] dead_tape) = Finished
  ∧ ¬ ∃ e, final (main [ada; bob; cy] dead_tape) = Uncaught e.
Proof.
  split_and!.
  - vm_compute. repeat constructor.
  - vm_compute. reflexivity.
  - vm_compute. reflexivity.
  - vm_compute. reflexivity.
  - intros [e He]. vm_compute in He. discriminate He.
Qed.

(** ** The store before and after [solve] *)

Section frame.
Import Store.
Variable h0 : store.

Lemma frame_alloc h o : h0 `prefix_of` h → h0 `prefix_of` h ++ [o].
Proof. apply prefix_app_r. Qed.

(** Writing to an object that was allocated later leaves [h0] alone. *)
Lemma frame_write h l o :
  h0 `prefix_of` h → length h0 ≤ l → h0 `prefix_of` <[l := o]> h.
Proof.
  intros [k ->] Hl. exists (<[l - length h0 := o]> k).
  by rewrite insert_app_r_alt.
Qed.

Lemma frame_append h l x :
  h0 `prefix_of` h → length h0 ≤ l → h0 `prefix_of` append l x h.
Proof. apply frame_write. Qed.

Lemma frame_copy_items items y memo h :
  h0 `prefix_of` h → length h0 ≤ y → h0 `prefix_of` copy_items items y memo h.
Proof.
  revert memo h. induction items as [|a items IH]; intros memo h Hh Hy; simpl; [done|].
  destruct (memo_get a memo) as [a'|].
  - apply IH; [|done]. by apply frame_append.
  - apply IH; [|done]. apply frame_append; [|done]. by apply frame_alloc.
Qed.

Lemma frame_deepcopy x h :
  h0 `prefix_of` h →
  h0 `prefix_of` (deepcopy x h).2 ∧ length h0 ≤ (deepcopy x h).1.
Proof.
  intros Hh. pose proof (prefix_length _ _ Hh) as Hlen. simpl. split; [|done].
  apply frame_copy_items; [|done]. by apply frame_alloc.
Qed.

Lemma frame_shuffle x h t h' t' :
  h0 `prefix_of` h → length h0 ≤ x →
  shuffle_in_place x h t = Some (h', t') → h0 `prefix_of` h'.
Proof.
  unfold shuffle_in_place. intros Hh Hx H.
  destruct (shuffle (items_at h x) t) as [[items t1]|]; simplify_eq.
  by apply frame_write.
Qed.

Lemma frame_remove l x h h' :
  h0 `prefix_of` h → length h0 ≤ l → remove l x h = Some h' → h0 `prefix_of` h'.
Proof.
  unfold remove. intros Hh Hl H.
  destruct (remove_first h x (items_at h l)) as [items|]; simplify_eq.
  by apply frame_write.
Qed.

Lemma frame_pair_up givers receivers pairs h t :
  h0 `prefix_of` h → length h0 ≤ receivers → length h0 ≤ pairs →
  h0 `prefix_of` (pair_up givers receivers pairs h t).1.2.
Proof.
  revert h t. induction givers as [|giver givers IH]; intros h t Hh Hr Hp; simpl; [done|].
  destruct (pick giver receivers h t) as [[receiver|e|] t1]; [|done..].
  assert (h0 `prefix_of` append pairs (length h) (h ++ [List [giver; receiver]])) as Hh'.
  { apply frame_append; [|done]. by apply frame_alloc. }
  destruct (remove receivers receiver _) as [h'|] eqn:Hrem; [|exact Hh'].
  apply IH; [|done..]. exact (frame_remove _ _ _ _ Hh' Hr Hrem).
Qed.

Lemma frame_solve participants t :
  h0 `prefix_of` (solve participants h0 t).1.2.
Proof.
  unfold solve.
  destruct (frame_deepcopy participants h0) as [Hh1 _]; [done|].
  destruct (deepcopy participants h0) as [givers h1]. simpl in Hh1.
  destruct (frame_deepcopy participants h1 Hh1) as [Hh2 Hr].
  destruct (deepcopy participants h1) as [receivers h2]. simpl in Hh2, Hr.
  pose proof (prefix_length _ _ Hh2) as Hlen.
  pose proof (frame_alloc h2 (List []) Hh2) as Hh3.
  destruct (shuffle_in_place receivers _ t) as [[h4 t1]|] eqn:Hsh; [|done].
  pose proof (frame_shuffle _ _ _ _ _ Hh3 Hr Hsh) as Hh4.
  pose proof (frame_pair_up (items_at h4 givers) receivers (length h2) h4 t1 Hh4 Hr Hlen)
    as Hh5.
  destruct (pair_up _ receivers (length h2) h4 t1) as [[[[]|e|] h5] t2]; [|done..].
  simpl in Hh5. by destruct (paranoia h5 _ _).
Qed.
End frame.

(** C8, the input is not mutated.  Whatever the store and the randomness,
    and whether [solve] returns, raises or is still drawing, every object
    that was in the store before the call is in it afterwards, unchanged, at
    the same location: [solve] allocates new objects and writes to those
    only.  So the list [participants] still has the same items, and each of
    them is the same record. *)
Theorem solve_keeps_input (participants : Store.loc) (h : Store.store) (t : tape) :
  h `prefix_of` (Store.solve participants h t).1.2 ∧
  take (length h) (Store.solve participants h t).1.2 = h.
Proof.
  pose proof (frame_solve h participants t) as [k Hk].
  split; [by exists k|]. by rewrite Hk, take_app_length.
Qed.

(** So the next attempt finds the list it was given: it is still a list of
    records, and it reads as before. *)
Lemma solve_keeps_participants participants h t :
  well_formed h participants →
  well_formed (Store.solve participants h t).1.2 participants ∧
  Store.read (Store.solve participants h t).1.2 participants = Store.read h participants.
Proof.
  intros (items & Hitems & Hrecs).
  destruct (frame_solve h participants t) as [k Hk]. rewrite Hk.
  assert (∀ l, is_record h l → (h ++ k) !! l = h !! l) as Hkeep.
  { intros l [q Hq]. apply lookup_app_l. by eapply lookup_lt_Some. }
  assert ((h ++ k) !! participants = h !! participants) as Hsame.
  { apply lookup_app_l. by eapply lookup_lt_Some. }
  split.
  - exists items. rewrite Hsame. split; [done|].
    eapply Forall_impl; [exact Hrecs|]. intros l Hl. simpl.
    unfold is_record. by rewrite Hkeep.
  - unfold Store.read, Store.items_at. rewrite Hsame, Hitems.
    apply Forall_fmap_ext_1. eapply Forall_impl; [exact Hrecs|]. intros l Hl. simpl.
    unfold Store.record_at. by rewrite Hkeep.
Qed.

(** ** The two models agree *)

Lemma writes_only_refl w h : writes_only w h h.
Proof. by split. Qed.

Lemma writes_only_trans w h1 h2 h3 :
  writes_only w h1 h2 → writes_only w h2 h3 → writes_only w h1 h3.
Proof.
  intros [Hl1 H1] [Hl2 H2]. split; [lia|].
  intros l Hl Hw. rewrite H2, H1; [done..|lia|done].
Qed.

Lemma writes_only_alloc w h o : writes_only w h (h ++ [o]).
Proof.
  split; [rewrite length_app; lia|]. intros l Hl _. by rewrite lookup_app_l.
Qed.

Lemma writes_only_insert w h l o : l ∈ w → writes_only w h (<[l := o]> h).
Proof.
  intros Hw. split; [by rewrite length_insert|].
  intros l' Hl' Hw'. rewrite list_lookup_insert_ne; [done|]. by intros ->.
Qed.

Lemma is_record_lt h l : is_record h l → l < length h.
Proof. intros [q Hq]. by eapply lookup_lt_Some. Qed.

(** Records are not written to when the written objects are lists. *)
Lemma writes_only_record w h h' l :
  writes_only w h h' → Forall (λ x, ¬ is_record h x) w → is_record h l →
  h' !! l = h !! l.
Proof.
  intros [_ Hw] Hlists Hl. apply Hw; [by apply is_record_lt|].
  intros Hin. rewrite Forall_forall in Hlists. by apply (Hlists l).
Qed.

Lemma not_record_list h l items : h !! l = Some (Store.List items) → ¬ is_record h l.
Proof. intros Hl [q Hq]. congruence. Qed.

Lemma record_at_eq h h' l : h' !! l = h !! l → Store.record_at h' l = Store.record_at h l.
Proof. unfold Store.record_at. by intros ->. Qed.

Lemma items_at_eq h h' l : h' !! l = h !! l → Store.items_at h' l = Store.items_at h l.
Proof. unfold Store.items_at. by intros ->. Qed.

Lemma is_record_eq h h' l : h' !! l = h !! l → is_record h l → is_record h' l.
Proof. unfold is_record. by intros ->. Qed.

Lemma items_at_Some h l items : h !! l = Some (Store.List items) → Store.items_at h l = items.
Proof. unfold Store.items_at. by intros ->. Qed.

Lemma record_at_Some h l q : h !! l = Some (Store.Dict q) → Store.record_at h l = q.
Proof. unfold Store.record_at. by intros ->. Qed.

Lemma memo_get_Some a a' memo : Store.memo_get a memo = Some a' → (a, a') ∈ memo.
Proof.
  induction memo as [|[b b'] memo IH]; simpl; [done|].
  destruct (decide (b = a)) as [->|_].
  - intros. simplify_eq. apply elem_of_cons. by left.
  - intros H. apply elem_of_cons. right. by apply IH.
Qed.

(** The loop of [deepcopy] appends to [y] one record for each item, equal
    to the item, and writes to no object of the store other than [y]. *)
Lemma copy_items_spec items y memo h acc :
  h !! y = Some (Store.List acc) →
  Forall (is_record h) items →
  Forall (λ m, is_record h m.1 ∧ is_record h m.2
               ∧ Store.record_at h m.2 = Store.record_at h m.1) memo →
  ∃ items',
    Store.copy_items items y memo h !! y = Some (Store.List (acc ++ items')) ∧
    Forall (is_record (Store.copy_items items y memo h)) items' ∧
    Store.record_at (Store.copy_items items y memo h) <$> items'
      = Store.record_at h <$> items ∧
    writes_only [y] h (Store.copy_items items y memo h).
Proof.
  revert memo h acc. induction items as [|a items IH]; intros memo h acc Hy Hitems Hmemo.
  { exists []. simpl. rewrite app_nil_r. split_and!; [done|constructor|done|].
    apply writes_only_refl. }
  apply Forall_cons in Hitems as [Ha Hitems]. cbn [Store.copy_items].
  assert (∀ h1 a' , writes_only [y] h h1 →
            h1 !! y = Some (Store.List (acc ++ [a'])) →
            is_record h1 a' → Store.record_at h1 a' = Store.record_at h a →
            ∀ memo1, Forall (λ m, is_record h1 m.1 ∧ is_record h1 m.2
               ∧ Store.record_at h1 m.2 = Store.record_at h1 m.1) memo1 →
            ∃ items',
              Store.copy_items items y memo1 h1 !! y
                = Some (Store.List (acc ++ items')) ∧
              Forall (is_record (Store.copy_items items y memo1 h1)) items' ∧
              Store.record_at (Store.copy_items items y memo1 h1) <$> items'
                = Store.record_at h <$> (a :: items) ∧
              writes_only [y] h (Store.copy_items items y memo1 h1)) as Hstep.
  { intros h1 a' Hw Hy1 Ha' Hrec memo1 Hmemo1.
    assert (Forall (λ x, ¬ is_record h x) [y]) as Hlist
      by (constructor; [by eapply not_record_list|constructor]).
    assert (Forall (λ x, ¬ is_record h1 x) [y]) as Hlist1
      by (constructor; [by eapply not_record_list|constructor]).
    assert (∀ l, is_record h l → h1 !! l = h !! l) as Hkeep
      by (intros l Hl; by eapply writes_only_record).
    destruct (IH memo1 h1 (acc ++ [a']) Hy1) as (items' & Hy' & Hrecs & Hvals & Hw'); [|done|].
    { eapply Forall_impl; [exact Hitems|]. intros l Hl. simpl.
      eapply is_record_eq; [|done]. by apply Hkeep. }
    assert (∀ l, is_record h1 l → Store.copy_items items y memo1 h1 !! l = h1 !! l)
      as Hkeep' by (intros l Hl; by eapply writes_only_record).
    exists (a' :: items'). rewrite <-app_assoc in Hy'. split_and!; [done| | |].
    - constructor; [|done]. eapply is_record_eq; [|done]. by apply Hkeep'.
    - rewrite !fmap_cons. f_equal.
      + by rewrite (record_at_eq _ _ _ (Hkeep' _ Ha')).
      + rewrite Hvals. apply Forall_fmap_ext_1. eapply Forall_impl; [exact Hitems|].
        intros l Hl. simpl. apply record_at_eq. by apply Hkeep.
    - by eapply writes_only_trans. }
  assert (y < length h) as Hylt by (by eapply lookup_lt_Some).
  destruct (Store.memo_get a memo) as [a'|] eqn:Hget.
  - apply memo_get_Some in Hget. rewrite Forall_forall in Hmemo.
    destruct (Hmemo _ Hget) as (_ & Ha' & Hrec). simpl in *.
    assert (a' ≠ y) as Hne by (intros ->; by eapply not_record_list).
    apply (Hstep _ a').
    + apply writes_only_insert. apply elem_of_cons. by left.
    + unfold Store.append. rewrite list_lookup_insert_eq by done.
      by rewrite (items_at_Some _ _ _ Hy).
    + eapply is_record_eq; [|done]. by apply list_lookup_insert_ne.
    + rewrite <-Hrec. apply record_at_eq. by apply list_lookup_insert_ne.
    + apply Forall_forall. intros [b b'] Hb. destruct (Hmemo _ Hb) as (Hb1 & Hb2 & Hb3).
      simpl in *. unfold Store.append.
      assert (b ≠ y) by (intros ->; by eapply not_record_list).
      assert (b' ≠ y) by (intros ->; by eapply not_record_list).
      split_and!.
      * eapply is_record_eq; [|done]. by apply list_lookup_insert_ne.
      * eapply is_record_eq; [|done]. by apply list_lookup_insert_ne.
      * by rewrite (record_at_eq h (<[y:=_]> h) b'), (record_at_eq h (<[y:=_]> h) b)
          by (by apply list_lookup_insert_ne).
  - set (h1 := h ++ [Store.Dict (Store.record_at h a)]).
    assert (h1 !! length h = Some (Store.Dict (Store.record_at h a))) as Hnew.
    { unfold h1. by rewrite lookup_app_r, Nat.sub_diag by done. }
    assert (∀ l, l < length h → h1 !! l = h !! l) as Hold.
    { intros l Hl. unfold h1. by rewrite lookup_app_l. }
    assert (length h ≠ y) as Hne by lia.
    assert (∀ l, l ≠ y → Store.append y (length h) h1 !! l = h1 !! l) as Hother.
    { intros l Hl. unfold Store.append. by apply list_lookup_insert_ne. }
    apply (Hstep _ (length h)).
    + eapply writes_only_trans; [apply writes_only_alloc|].
      apply writes_only_insert. apply elem_of_cons. by left.
    + unfold Store.append. rewrite list_lookup_insert_eq
        by (unfold h1; rewrite length_app; lia).
      rewrite (items_at_eq h h1) by (by apply Hold). by rewrite (items_at_Some _ _ _ Hy).
    + exists (Store.record_at h a). by rewrite Hother.
    + apply record_at_Some. by rewrite Hother.
    + assert (∀ b, is_record h b → Store.append y (length h) h1 !! b = h !! b) as Hrecs.
      { intros b Hb. rewrite Hother, Hold; [done|by apply is_record_lt|].
        intros ->. by eapply not_record_list. }
      constructor.
      * simpl. split_and!.
        -- eapply is_record_eq; [|done]. by apply Hrecs.
        -- exists (Store.record_at h a). by rewrite Hother.
        -- rewrite (record_at_eq h _ a) by (by apply Hrecs).
           apply record_at_Some. by rewrite Hother.
      * apply Forall_forall. intros [b b'] Hb. rewrite Forall_forall in Hmemo.
        destruct (Hmemo _ Hb) as (Hb1 & Hb2 & Hb3). simpl in *. split_and!.
        -- eapply is_record_eq; [|done]. by apply Hrecs.
        -- eapply is_record_eq; [|done]. by apply Hrecs.
        -- by rewrite (record_at_eq h (Store.append _ _ _) b'),
             (record_at_eq h (Store.append _ _ _) b) by (by apply Hrecs).
Qed.

(** The copies are objects that were not in the store before. *)
Lemma copy_items_fresh n items y memo h acc :
  h !! y = Some (Store.List acc) → n ≤ length h → Forall (λ m, n ≤ m.2) memo →
  ∃ items',
    Store.copy_items items y memo h !! y = Some (Store.List (acc ++ items')) ∧
    Forall (λ l, n ≤ l) items'.
Proof.
  revert memo h acc. induction items as [|a items IH]; intros memo h acc Hy Hn Hmemo.
  { exists []. by rewrite app_nil_r. }
  pose proof (lookup_lt_Some _ _ _ Hy) as Hylt. cbn [Store.copy_items].
  destruct (Store.memo_get a memo) as [a'|] eqn:Hget.
  - apply memo_get_Some in Hget. rewrite Forall_forall in Hmemo.
    pose proof (Hmemo _ Hget) as Ha'. simpl in Ha'.
    destruct (IH memo (Store.append y a' h) (acc ++ [a'])) as (items' & Hy' & Hfresh).
    { unfold Store.append. rewrite list_lookup_insert_eq by done.
      by rewrite (items_at_Some _ _ _ Hy). }
    { unfold Store.append. by rewrite length_insert. }
    { by apply Forall_forall. }
    exists (a' :: items'). rewrite <-app_assoc in Hy'. split; [done|]. by constructor.
  - set (h1 := h ++ [Store.Dict (Store.record_at h a)]).
    assert (length h1 = S (length h)) as Hlen1
      by (unfold h1; rewrite length_app; simpl; lia).
    destruct (IH ((a, length h) :: memo) (Store.append y (length h) h1)
                (acc ++ [length h])) as (items' & Hy' & Hfresh).
    { unfold Store.append. rewrite list_lookup_insert_eq by lia.
      rewrite (items_at_eq h h1) by (unfold h1; by apply lookup_app_l).
      by rewrite (items_at_Some _ _ _ Hy). }
    { unfold Store.append. rewrite length_insert. lia. }
    { by constructor. }
    exists (length h :: items'). rewrite <-app_assoc in Hy'. split; [done|]. by constructor.
Qed.

Lemma deepcopy_fresh x h :
  ∃ items',
    (Store.deepcopy x h).2 !! length h = Some (Store.List items') ∧
    Forall (λ l, length h ≤ l) items'.
Proof.
  unfold Store.deepcopy. simpl.
  apply (copy_items_fresh (length h) _ (length h) [] _ []).
  - by rewrite lookup_app_r, Nat.sub_diag by done.
  - rewrite length_app. lia.
  - constructor.
Qed.

Lemma prefix_of_lookup (h h' : list Store.obj) l :
  h `prefix_of` h' → l < length h → h' !! l = h !! l.
Proof. intros [k ->] Hl. by apply lookup_app_l. Qed.

Lemma deepcopy_spec x h :
  well_formed h x →
  ∃ items',
    (Store.deepcopy x h).1 = length h ∧
    (Store.deepcopy x h).2 !! length h = Some (Store.List items') ∧
    Forall (is_record (Store.deepcopy x h).2) items' ∧
    Store.record_at (Store.deepcopy x h).2 <$> items' = Store.read h x.
Proof.
  intros (items & Hx & Hitems). unfold Store.deepcopy, Store.read. simpl.
  assert (x < length h) as Hlt by (by eapply lookup_lt_Some).
  rewrite (items_at_eq h (h ++ [Store.List []]) x) by (by apply lookup_app_l).
  rewrite (items_at_Some _ _ _ Hx).
  destruct (copy_items_spec items (length h) [] (h ++ [Store.List []]) [])
    as (items' & Hy & Hrecs & Hvals & _).
  { by rewrite lookup_app_r, Nat.sub_diag by done. }
  { eapply Forall_impl; [exact Hitems|]. intros l Hl. simpl.
    eapply is_record_eq; [|done]. apply lookup_app_l. by apply is_record_lt. }
  { constructor. }
  exists items'. split_and!; [done..|].
  rewrite Hvals. apply Forall_fmap_ext_1. eapply Forall_impl; [exact Hitems|].
  intros l Hl. simpl. apply record_at_eq, lookup_app_l. by apply is_record_lt.
Qed.

Section fmap_facts.
Context {X Y : Type} (f : X → Y).

Lemma swap_fmap (x : list X) i j : swap (f <$> x) i j = f <$> swap x i j.
Proof.
  unfold swap. rewrite !list_lookup_fmap.
  destruct (x !! i) as [xi|]; [|done]. destruct (x !! j) as [xj|]; [|done].
  simpl. by rewrite !list_fmap_insert.
Qed.

Lemma shuffle_from_fmap i (x : list X) t :
  shuffle_from i (f <$> x) t
    = (λ yt : list X * tape, (f <$> yt.1, yt.2)) <$> shuffle_from i x t.
Proof.
  revert x t. induction i as [|i IH]; intros x t; simpl; [done|].
  destruct t as [|k t]; [done|]. by rewrite swap_fmap, IH.
Qed.

Lemma shuffle_fmap (x : list X) t :
  shuffle (f <$> x) t = (λ yt : list X * tape, (f <$> yt.1, yt.2)) <$> shuffle x t.
Proof. unfold shuffle. rewrite length_fmap. apply shuffle_from_fmap. Qed.

Lemma choice_fmap (l : list X) k : choice (f <$> l) k = f <$> choice l k.
Proof. unfold choice. by rewrite length_fmap, list_lookup_fmap. Qed.
End fmap_facts.

(** The loop for one giver takes the same course in both models. *)
Lemma pick_refines h giver receivers t :
  ∃ ds,
    pick (Store.record_at h giver) (Store.read h receivers) t =
      (outcome_map (Store.record_at h) (Store.pick giver receivers h t).1, ds,
       (Store.pick giver receivers h t).2).
Proof.
  unfold Store.read. induction t as [|k t [ds IH]]; simpl; [by eexists|].
  rewrite choice_fmap, length_fmap.
  destruct (choice (Store.items_at h receivers) k) as [r|]; simpl; [|by eexists].
  destruct (decide (Store.record_at h r = Store.record_at h giver)); [|by eexists].
  destruct (decide (length (Store.items_at h receivers) = 1)); [by eexists|].
  rewrite IH. by eexists.
Qed.

Lemma remove_first_refines h x (items : list nat) :
  remove (Store.record_at h x) (Store.record_at h <$> items)
    = (λ l : list nat, Store.record_at h <$> l) <$> Store.remove_first h x items.
Proof.
  induction items as [|y items IH]; [done|].
  rewrite fmap_cons. cbn [remove Store.remove_first].
  destruct (decide (Store.record_at h y = Store.record_at h x)); [done|].
  rewrite IH. by destruct (Store.remove_first h x items).
Qed.

Lemma remove_first_Forall (P : nat → Prop) h x items items' :
  Store.remove_first h x items = Some items' → Forall P items → Forall P items'.
Proof.
  revert items'. induction items as [|y items IH]; intros items'; simpl; [done|].
  intros H [Hy Hitems]%Forall_cons.
  destruct (decide (Store.record_at h y = Store.record_at h x)).
  - by simplify_eq.
  - destruct (Store.remove_first h x items) as [r|]; [|done]. simplify_eq.
    constructor; [done|]. by apply IH.
Qed.

Lemma remove_first_elem_of h x items items' y :
  Store.remove_first h x items = Some items' → y ∈ items' → y ∈ items.
Proof.
  intros H Hy.
  assert (Forall (λ z, z ∈ items) items') as Hall.
  { apply (remove_first_Forall _ _ _ _ _ H). by apply Forall_forall. }
  rewrite Forall_forall in Hall. auto.
Qed.

(** The search of [remove] looks at the records only. *)
Lemma remove_first_ext h h' x items :
  Store.record_at h' x = Store.record_at h x →
  Forall (λ y, Store.record_at h' y = Store.record_at h y) items →
  Store.remove_first h' x items = Store.remove_first h x items.
Proof.
  intros Hx. induction 1 as [|y items Hy _ IH]; simpl; [done|].
  by rewrite Hx, Hy, IH.
Qed.

Lemma pick_elem_of h giver receivers t r t' :
  Store.pick giver receivers h t = (Returned r, t') → r ∈ Store.items_at h receivers.
Proof.
  revert t'. induction t as [|k t IH]; intros t'; simpl; [done|].
  destruct (choice (Store.items_at h receivers) k) as [r'|] eqn:Hk; [|done].
  destruct (decide (Store.record_at h r' = Store.record_at h giver)).
  - destruct (decide (length (Store.items_at h receivers) = 1)); [done|]. apply IH.
  - intros. simplify_eq. by eapply choice_elem_of.
Qed.

(** A pair reads the same as long as it and its records are left alone. *)
Lemma is_pair_kept h h' p :
  (∀ l, is_record h l → h' !! l = h !! l) → h' !! p = h !! p → is_pair h p →
  is_pair h' p ∧ Store.read_pair h' p = Store.read_pair h p.
Proof.
  intros Hrec Hp (g & r & Hgr & Hg & Hr & Hne). split.
  - exists g, r. rewrite Hp.
    split_and!; [done| | |done]; (eapply is_record_eq; [|done]); auto.
  - unfold Store.read_pair. rewrite (items_at_eq h h' p Hp), (items_at_Some _ _ _ Hgr).
    by rewrite (record_at_eq h h' g), (record_at_eq h h' r) by auto.
Qed.

(** One round of the [for] loop: the pair is allocated and appended to
    [pairs], then [receivers] is overwritten. *)
Lemma linked_step h receivers pairs givers g r rs rs' :
  linked h receivers pairs givers →
  h !! receivers = Some (Store.List rs) →
  is_record h g → is_record h r → Forall (is_record h) rs' →
  g ≠ r → Forall (λ x, x ∉ rs') givers →
  let hb := Store.append pairs (length h) (h ++ [Store.List [g; r]]) in
  let hc := <[receivers := Store.List rs']> hb in
  (∀ l, is_record h l → hb !! l = h !! l) ∧
  (∀ l, is_record h l → hc !! l = h !! l) ∧
  hb !! receivers = Some (Store.List rs) ∧
  hc !! receivers = Some (Store.List rs') ∧
  linked hb receivers pairs givers ∧
  linked hc receivers pairs givers ∧
  Store.read_pairs hb pairs
    = Store.read_pairs h pairs ++ [(Store.record_at h g, Store.record_at h r)] ∧
  Store.read_pairs hc pairs
    = Store.read_pairs h pairs ++ [(Store.record_at h g, Store.record_at h r)].
Proof.
  intros (Hne & (rs0 & Hrs0 & Hrecs & Hdisj) & (prs & Hprs & Hpairs) & Hgs)
    Hrs Hg Hr Hrs' Hgr Hdisj' hb hc.
  assert (rs0 = rs) as -> by congruence. clear Hrs0.
  assert (receivers < length h) as Hrlt by (by eapply lookup_lt_Some).
  assert (pairs < length h) as Hplt by (by eapply lookup_lt_Some).
  set (ha := h ++ [Store.List [g; r]]) in *.
  assert (length ha = S (length h)) as Hla by (unfold ha; rewrite length_app; simpl; lia).
  assert (∀ l, l < length h → ha !! l = h !! l) as Ha
    by (intros l Hl; unfold ha; by apply lookup_app_l).
  assert (ha !! length h = Some (Store.List [g; r])) as Hnew
    by (unfold ha; by rewrite lookup_app_r, Nat.sub_diag by done).
  assert (Store.items_at ha pairs = prs) as Hprs_a.
  { rewrite (items_at_eq h ha) by (by apply Ha). by apply items_at_Some. }
  assert (hb = <[pairs := Store.List (prs ++ [length h])]> ha) as Hhb
    by (unfold hb, Store.append; by rewrite Hprs_a).
  assert (∀ l, l < length h → l ≠ pairs → hb !! l = h !! l) as Hb.
  { intros l Hl Hlp. rewrite Hhb, list_lookup_insert_ne by done. by apply Ha. }
  assert (hb !! pairs = Some (Store.List (prs ++ [length h]))) as Hbp.
  { rewrite Hhb. apply list_lookup_insert_eq. lia. }
  assert (hb !! length h = Some (Store.List [g; r])) as Hbnew.
  { rewrite Hhb, list_lookup_insert_ne by lia. done. }
  assert (length hb = S (length h)) as Hlb by (rewrite Hhb, length_insert; done).
  assert (∀ l, l ≠ receivers → hc !! l = hb !! l) as Hc.
  { intros l Hl. unfold hc. by rewrite list_lookup_insert_ne. }
  assert (hc !! receivers = Some (Store.List rs')) as Hcr.
  { unfold hc. apply list_lookup_insert_eq. lia. }
  assert (∀ l, is_record h l → l < length h ∧ l ≠ receivers ∧ l ≠ pairs) as Hrecord.
  { intros l Hl. split_and!; [by apply is_record_lt|..];
      intros ->; destruct Hl as [q Hq]; congruence. }
  assert (∀ l, is_record h l → hb !! l = h !! l) as Hbrec.
  { intros l (? & ? & ?)%Hrecord. by apply Hb. }
  assert (∀ l, is_record h l → hc !! l = h !! l) as Hcrec.
  { intros l Hl. destruct (Hrecord l Hl) as (? & ? & ?). rewrite Hc by done. by apply Hb. }
  assert (hb !! receivers = Some (Store.List rs)) as Hbr.
  { by rewrite Hb. }
  assert (∀ h', (∀ l, is_record h l → h' !! l = h !! l) →
                (∀ l, l < length h → l ≠ receivers → l ≠ pairs → h' !! l = h !! l) →
                h' !! length h = Some (Store.List [g; r]) →
                h' !! pairs = Some (Store.List (prs ++ [length h])) →
                Forall (λ p, is_pair h' p ∧ p ≠ receivers ∧ p ≠ pairs) (prs ++ [length h]) ∧
                Store.read_pairs h' pairs
                  = Store.read_pairs h pairs ++ [(Store.record_at h g, Store.record_at h r)])
    as Hpairs'.
  { intros h' Hrec' Hold' Hnew' Hp'. split.
    - apply Forall_app. split.
      + eapply Forall_impl; [exact Hpairs|]. intros p (Hp & Hp1 & Hp2). simpl.
        split_and!; [|done..]. eapply is_pair_kept; [done| |done].
        apply Hold'; [|done..]. destruct Hp as (? & ? & ? & _). by eapply lookup_lt_Some.
      + constructor; [|constructor]. split_and!; [|lia..].
        exists g, r. split_and!; [done| | |done]; (eapply is_record_eq; [|done]); auto.
    - unfold Store.read_pairs. rewrite (items_at_Some _ _ _ Hp'), (items_at_Some _ _ _ Hprs).
      rewrite fmap_app. f_equal.
      + apply Forall_fmap_ext_1. eapply Forall_impl; [exact Hpairs|].
        intros p (Hp & Hp1 & Hp2). simpl. eapply is_pair_kept; [done| |done].
        apply Hold'; [|done..]. destruct Hp as (? & ? & ? & _). by eapply lookup_lt_Some.
      + simpl. unfold Store.read_pair. rewrite (items_at_Some _ _ _ Hnew').
        by rewrite (record_at_eq h h' g), (record_at_eq h h' r) by auto. }
  destruct (Hpairs' hb) as [Hpb Hreadb]; [done| |done|done|].
  { intros l ? _ ?. by apply Hb. }
  destruct (Hpairs' hc) as [Hpc Hreadc]; [done| | | |].
  { intros l ? ? ?. rewrite Hc by done. by apply Hb. }
  { rewrite Hc by lia. done. }
  { rewrite Hc by done. done. }
  split_and!; try done.
  - split_and!; [done| | |].
    + exists rs. split_and!; [done| |done]. eapply Forall_impl; [exact Hrecs|].
      intros l Hl. simpl. eapply is_record_eq; [|done]. auto.
    + by exists (prs ++ [length h]).
    + eapply Forall_impl; [exact Hgs|].
      intros l Hl. simpl. eapply is_record_eq; [|done]. auto.
  - split_and!; [done| | |].
    + exists rs'. split_and!; [done| |done]. eapply Forall_impl; [exact Hrs'|].
      intros l Hl. simpl. eapply is_record_eq; [|done]. auto.
    + exists (prs ++ [length h]). split; [|done]. by rewrite Hc.
    + eapply Forall_impl; [exact Hgs|].
      intros l Hl. simpl. eapply is_record_eq; [|done]. auto.
Qed.

(** The [for] loop takes the same course in both models. *)
Lemma pair_up_refines receivers pairs givers h t :
  linked h receivers pairs givers →
  (pair_up (Store.record_at h <$> givers) (Store.read h receivers)
     (Store.read_pairs h pairs) t).1.1
    = outcome_map (λ _, Store.read_pairs (Store.pair_up givers receivers pairs h t).1.2 pairs)
        (Store.pair_up givers receivers pairs h t).1.1 ∧
  (pair_up (Store.record_at h <$> givers) (Store.read h receivers)
     (Store.read_pairs h pairs) t).2
    = (Store.pair_up givers receivers pairs h t).2 ∧
  linked (Store.pair_up givers receivers pairs h t).1.2 receivers pairs [].
Proof.
  revert h t. induction givers as [|g givers IH]; intros h t Hlink.
  { simpl. split_and!; [done..|]. destruct Hlink as (? & ? & ? & _). by split_and!. }
  pose proof Hlink as (Hne & (rs & Hrs & Hrecs & [Hgrs Hdisj]%Forall_cons) & Hprs
                       & [Hg Hgs]%Forall_cons).
  assert (linked h receivers pairs givers) as Hlink'.
  { split_and!; [done| |done..]. by exists rs. }
  assert (linked h receivers pairs []) as Hlink0.
  { split_and!; [done| |done|constructor]. exists rs. split_and!; [done..|constructor]. }
  rewrite fmap_cons. cbn [pair_up Store.pair_up].
  destruct (pick_refines h g receivers t) as [ds ->].
  destruct (Store.pick g receivers h t) as [[r|e|] t1] eqn:Hpick; cbn [fst snd outcome_map];
    [|done..].
  apply pick_elem_of in Hpick. rewrite (items_at_Some _ _ _ Hrs) in Hpick.
  assert (is_record h r) as Hr by (rewrite Forall_forall in Hrecs; auto).
  assert (g ≠ r) as Hgr by (by intros ->).
  unfold Store.read. rewrite (items_at_Some _ _ _ Hrs), remove_first_refines.
  unfold Store.remove.
  set (hb := Store.append pairs (length h) (h ++ [Store.List [g; r]])).
  destruct (Store.remove_first h r rs) as [rs'|] eqn:Hrem.
  - pose proof (remove_first_Forall _ _ _ _ _ Hrem Hrecs) as Hrecs'.
    assert (Forall (λ x, x ∉ rs') givers) as Hdisj'.
    { eapply Forall_impl; [exact Hdisj|]. intros x Hx Hin. simpl in Hx.
      by eapply Hx, remove_first_elem_of. }
    destruct (linked_step h receivers pairs givers g r rs rs' Hlink' Hrs Hg Hr Hrecs'
                Hgr Hdisj')
      as (Hbrec & Hcrec & Hbr & Hcr & _ & Hlinkc & _ & Hreadc).
    fold hb in Hbrec, Hcrec, Hbr, Hcr, Hlinkc, Hreadc.
    rewrite (items_at_Some _ _ _ Hbr).
    rewrite (remove_first_ext h hb), Hrem.
    2: { apply record_at_eq. auto. }
    2: { eapply Forall_impl; [exact Hrecs|]. intros l Hl. simpl. apply record_at_eq. auto. }
    cbn [fmap option_fmap option_map].
    set (hc := <[receivers := Store.List rs']> hb) in *.
    destruct (IH hc t1 Hlinkc) as (Ho & Ht & Hfinal).
    unfold Store.read in Ho, Ht. rewrite (items_at_Some _ _ _ Hcr), Hreadc in Ho, Ht.
    rewrite (Forall_fmap_ext_1 (Store.record_at hc) (Store.record_at h) givers) in Ho, Ht.
    2,3: eapply Forall_impl; [exact Hgs|]; intros l Hl; simpl; apply record_at_eq; auto.
    rewrite (Forall_fmap_ext_1 (Store.record_at hc) (Store.record_at h) rs') in Ho, Ht.
    2,3: eapply Forall_impl; [exact Hrecs'|]; intros l Hl; simpl; apply record_at_eq; auto.
    destruct (pair_up (Store.record_at h <$> givers) (Store.record_at h <$> rs') _ t1)
      as [[o2 ds2] t2]. simpl in Ho, Ht. by split_and!.
  - destruct (linked_step h receivers pairs [] g r rs [] Hlink0 Hrs Hg Hr)
      as (Hbrec & _ & Hbr & _ & Hlinkb & _ ); [constructor|done|constructor|].
    fold hb in Hbrec, Hbr, Hlinkb.
    rewrite (items_at_Some _ _ _ Hbr).
    rewrite (remove_first_ext h hb), Hrem.
    2: { apply record_at_eq. auto. }
    2: { eapply Forall_impl; [exact Hrecs|]. intros l Hl. simpl. apply record_at_eq. auto. }
    cbn [fmap option_fmap option_map]. by split_and!.
Qed.

Lemma name_at_pair h p :
  is_pair h p →
  Store.name_at h p 0 = name (giver_of (Store.read_pair h p)) ∧
  Store.name_at h p 1 = name (receiver_of (Store.read_pair h p)).
Proof.
  intros (g & r & Hp & _). unfold Store.name_at, Store.read_pair.
  by rewrite (items_at_Some _ _ _ Hp).
Qed.

Lemma tally_refines h person prs giveCount receiveCount :
  Forall (is_pair h) prs →
  Store.tally h person prs giveCount receiveCount
    = tally (Store.record_at h person) (Store.read_pair h <$> prs) giveCount receiveCount.
Proof.
  intros Hprs. revert giveCount receiveCount.
  induction Hprs as [|p prs Hp _ IH]; intros giveCount receiveCount; [done|].
  rewrite fmap_cons. cbn [tally Store.tally].
  destruct (name_at_pair h p Hp) as [-> ->]. apply IH.
Qed.

Lemma paranoia_refines h items prs :
  Forall (is_pair h) prs →
  Store.paranoia h items prs
    = paranoia (Store.record_at h <$> items) (Store.read_pair h <$> prs).
Proof.
  intros Hprs. induction items as [|person items IH]; [done|].
  rewrite fmap_cons. cbn [paranoia Store.paranoia].
  rewrite (tally_refines h person prs 0 0 Hprs).
  destruct (tally _ _ 0 0) as [giveCount receiveCount].
  by rewrite IH.
Qed.

(** A run of [Store.solve] on a list of records, step by step along the
    run of [solve] on the records of that list. *)
Lemma store_solve_spec (participants : nat) (h : list Store.obj) (t : tape) :
  well_formed h participants →
  solve (Store.read h participants) t
    = outcome_map (Store.read_pairs (Store.solve participants h t).1.2)
        (Store.solve participants h t).1.1 ∧
  rest (Store.read h participants) t = (Store.solve participants h t).2 ∧
  (∀ pairs, (Store.solve participants h t).1.1 = Returned pairs →
     Forall (is_pair (Store.solve participants h t).1.2)
       (Store.items_at (Store.solve participants h t).1.2 pairs)).
Proof.
  intros Hwf. pose proof Hwf as (items & Hitems & Hrecs).
  assert (participants < length h) as Hplt by (by eapply lookup_lt_Some).
  set (ps := Store.read h participants).
  unfold solve, rest, solve_run, Store.solve.
  (* the copy for the givers *)
  destruct (deepcopy_spec participants h Hwf) as (gi & Hg & Hgi & Hgrecs & Hgvals).
  destruct (frame_deepcopy h participants h) as [Hh1 _]; [done|].
  destruct (Store.deepcopy participants h) as [givers h1]. simpl in Hg, Hgi, Hgrecs, Hgvals, Hh1.
  subst givers. fold ps in Hgvals.
  pose proof (lookup_lt_Some _ _ _ Hgi) as Hlen1.
  assert (well_formed h1 participants) as Hwf1.
  { exists items. rewrite (prefix_of_lookup h h1) by done. split; [done|].
    eapply Forall_impl; [exact Hrecs|]. intros l Hl. simpl.
    eapply is_record_eq; [|done]. apply prefix_of_lookup; [done|]. by apply is_record_lt. }
  assert (Store.read h1 participants = ps) as Hps1.
  { unfold ps, Store.read. rewrite (items_at_eq h h1) by (by apply prefix_of_lookup).
    rewrite (items_at_Some _ _ _ Hitems). apply Forall_fmap_ext_1.
    eapply Forall_impl; [exact Hrecs|]. intros l Hl. simpl.
    apply record_at_eq, prefix_of_lookup; [done|]. by apply is_record_lt. }
  (* the copy for the receivers *)
  destruct (deepcopy_spec participants h1 Hwf1) as (ri & Hr & Hri & Hrrecs & Hrvals).
  destruct (deepcopy_fresh participants h1) as (ri0 & Hri0 & Hfresh).
  destruct (frame_deepcopy h1 participants h1) as [Hh2 _]; [done|].
  destruct (Store.deepcopy participants h1) as [receivers h2].
  simpl in Hr, Hri, Hri0, Hrrecs, Hrvals, Hh2. subst receivers. rewrite Hps1 in Hrvals.
  assert (ri0 = ri) as -> by congruence. clear Hri0.
  pose proof (lookup_lt_Some _ _ _ Hri) as Hlen2.
  assert (∀ l, l < length h1 → h2 !! l = h1 !! l) as H12
    by (intros l Hl; by apply prefix_of_lookup).
  (* the empty list of pairs *)
  set (h3 := h2 ++ [Store.List []]).
  assert (∀ l, l < length h2 → h3 !! l = h2 !! l) as H23
    by (intros l Hl; unfold h3; by apply lookup_app_l).
  assert (h3 !! length h2 = Some (Store.List [])) as Hpairs3
    by (unfold h3; by rewrite lookup_app_r, Nat.sub_diag by done).
  assert (length h3 = S (length h2)) as Hlen3
    by (unfold h3; rewrite length_app; simpl; lia).
  (* the shuffle *)
  unfold Store.shuffle_in_place.
  rewrite (items_at_eq h2 h3 (length h1)) by (apply H23; lia).
  rewrite (items_at_Some _ _ _ Hri).
  rewrite <-Hrvals, shuffle_fmap.
  destruct (shuffle ri t) as [[ri' t1]|] eqn:Hsh; cbn [fmap option_fmap option_map fst snd];
    [|done].
  rewrite Hrvals.
  set (h4 := <[length h1 := Store.List ri']> h3).
  assert (∀ l, l ≠ length h1 → h4 !! l = h3 !! l) as H34
    by (intros l Hl; unfold h4; by apply list_lookup_insert_ne).
  assert (h4 !! length h1 = Some (Store.List ri')) as Hri4
    by (unfold h4; apply list_lookup_insert_eq; lia).
  assert (∀ l, is_record h2 l → h4 !! l = h2 !! l) as Hrec4.
  { intros l Hl. pose proof (is_record_lt _ _ Hl).
    rewrite H34, H23; [done..|]. intros ->. destruct Hl as [q Hq]. congruence. }
  assert (Forall (is_record h2) gi) as Hgrecs2.
  { eapply Forall_impl; [exact Hgrecs|]. intros l Hl. simpl.
    eapply is_record_eq; [|done]. apply H12. by apply is_record_lt. }
  assert (Store.record_at h4 <$> gi = ps) as Hgvals4.
  { rewrite <-Hgvals. apply Forall_fmap_ext_1. rewrite Forall_forall in Hgrecs, Hgrecs2.
    apply Forall_forall. intros l Hl.
    rewrite (record_at_eq h2 h4) by auto. apply record_at_eq, H12, is_record_lt. auto. }
  assert (Forall (is_record h2) ri') as Hrrecs'
    by (by rewrite (shuffle_Permutation _ _ _ _ Hsh)).
  assert (h4 !! length h = Some (Store.List gi)) as Hgi4.
  { rewrite H34, H23, H12 by lia. done. }
  assert (linked h4 (length h1) (length h2) gi) as Hlink.
  { split_and!; [lia| | |].
    - exists ri'. split_and!; [done| |].
      + eapply Forall_impl; [exact Hrrecs'|].
        intros l Hl. simpl. eapply is_record_eq; [|done]. auto.
      + eapply Forall_impl; [exact Hgrecs|]. intros l Hl%is_record_lt Hin. simpl in *.
        rewrite (shuffle_Permutation _ _ _ _ Hsh) in Hin.
        rewrite Forall_forall in Hfresh. apply Hfresh in Hin. lia.
    - exists []. rewrite H34 by lia. split; [done|constructor].
    - eapply Forall_impl; [exact Hgrecs2|].
      intros l Hl. simpl. eapply is_record_eq; [|done]. auto. }
  (* the loop *)
  rewrite (items_at_Some _ _ _ Hgi4).
  destruct (pair_up_refines _ _ _ _ t1 Hlink) as (Ho & Ht & Hfinal).
  unfold Store.read, Store.read_pairs in Ho, Ht.
  rewrite (items_at_Some _ _ _ Hri4), Hgvals4 in Ho, Ht.
  rewrite (items_at_eq h3 h4 (length h2)), (items_at_Some _ _ _ Hpairs3) in Ho, Ht
    by (apply H34; lia).
  rewrite (Forall_fmap_ext_1 (Store.record_at h4) (Store.record_at h2) ri') in Ho, Ht.
  2,3: eapply Forall_impl; [exact Hrrecs'|]; intros l Hl; simpl; apply record_at_eq; auto.
  change (Store.read_pair h4 <$> []) with (@nil pair) in Ho, Ht.
  pose proof (frame_pair_up h gi (length h1) (length h2) h4 t1) as Hframe.
  destruct (pair_up ps (Store.record_at h2 <$> ri') [] t1) as [[o ds] t2].
  destruct (Store.pair_up gi (length h1) (length h2) h4 t1) as [[o' h5] t2'].
  simpl in Ho, Ht, Hfinal, Hframe. subst t2'.
  destruct o' as [[]|e|]; simpl in Ho; subst o; [|done..].
  (* the paranoia test *)
  assert (h `prefix_of` h5) as Hh5.
  { apply Hframe; [|lia..]. unfold h4. apply frame_write; [|lia].
    unfold h3. apply frame_alloc. by etrans. }
  destruct Hfinal as (_ & _ & (prs & Hprs & Hpairs) & _).
  rewrite (items_at_Some _ _ _ Hprs).
  rewrite (items_at_eq h h5 participants), (items_at_Some _ _ _ Hitems)
    by (by apply prefix_of_lookup).
  rewrite paranoia_refines.
  2: { eapply Forall_impl; [exact Hpairs|]. by intros p (? & _). }
  rewrite (Forall_fmap_ext_1 (Store.record_at h5) (Store.record_at h) items).
  2: { eapply Forall_impl; [exact Hrecs|]. intros l Hl. simpl.
       apply record_at_eq, prefix_of_lookup; [done|]. by apply is_record_lt. }
  unfold ps, Store.read. rewrite (items_at_Some _ _ _ Hitems).
  destruct (paranoia _ _); cbn [fst snd outcome_map]; [done|].
  split_and!; [|done|].
  - unfold Store.read_pairs. by rewrite (items_at_Some _ _ _ Hprs).
  - intros pairs [= <-]. rewrite (items_at_Some _ _ _ Hprs).
    eapply Forall_impl; [exact Hpairs|]. by intros p (? & _).
Qed.

(** The store model and the model on values agree: on a store in which
    [participants] is a list of records, [Store.solve] ends as [solve] does
    on the records of that list, with the same pairs when it returns, and it
    leaves the same tape. *)
Theorem store_solve_refines (participants : nat) (h : list Store.obj) (t : tape) :
  well_formed h participants →
  solve (Store.read h participants) t
    = outcome_map (Store.read_pairs (Store.solve participants h t).1.2)
        (Store.solve participants h t).1.1 ∧
  rest (Store.read h participants) t = (Store.solve participants h t).2.
Proof.
  intros Hwf. destruct (store_solve_spec participants h t Hwf) as (? & ? & _). done.
Qed.

(** In the list that [Store.solve] returns, every entry is a list of two
    records that are two objects: the giver is an object of the first copy,
    the receiver an object of the second. *)
Theorem store_solve_two_objects (participants : nat) (h : list Store.obj) (t : tape)
    (pairs : nat) :
  well_formed h participants →
  (Store.solve participants h t).1.1 = Returned pairs →
  Forall (λ p, ∃ g r, (Store.solve participants h t).1.2 !! p = Some (Store.List [g; r])
                      ∧ g ≠ r)
    (Store.items_at (Store.solve participants h t).1.2 pairs).
Proof.
  intros Hwf Hret. destruct (store_solve_spec participants h t Hwf) as (_ & _ & Hpairs).
  eapply Forall_impl; [by apply Hpairs|].
  intros p (g & r & Hp & _ & _ & Hne). by exists g, r.
Qed.


(** A second call on the store that a first call left behind is, again, a
    run of [solve] on the same participants: the copies, the pool and the
    pairs of the first attempt play no role in the next one. *)
Corollary store_solve_again (participants : nat) (h : list Store.obj) (t t' : tape) :
  well_formed h participants →
  solve (Store.read h participants) t'
    = outcome_map
        (Store.read_pairs
           (Store.solve participants (Store.solve participants h t).1.2 t').1.2)
        (Store.solve participants (Store.solve participants h t).1.2 t').1.1.
Proof.
  intros Hwf. destruct (solve_keeps_participants participants h t Hwf) as [Hwf' Hread].
  rewrite <-Hread. by apply store_solve_refines.
Qed.

Lemma store_solve_again_witness :
  well_formed sample_store 3 ∧
  solve (Store.read sample_store 3) [0; 0; 0; 0; 0]
    = outcome_map
        (Store.read_pairs
           (Store.solve 3 (Store.solve 3 sample_store [2; 1; 1; 0; 0]).1.2
              [0; 0; 0; 0; 0]).1.2)
        (Store.solve 3 (Store.solve 3 sample_store [2; 1; 1; 0; 0]).1.2
           [0; 0; 0; 0; 0]).1.1.
Proof.
  assert (well_formed sample_store 3) as Hwf.
  { exists [0; 1; 2]. split; [reflexivity|].
    repeat constructor; eexists; reflexivity. }
  split; [exact Hwf|]. exact (store_solve_again 3 sample_store _ _ Hwf).
Qed.

Lemma sample_store_well_formed : well_formed sample_store 3.
Proof.
  exists [0; 1; 2]. split; [reflexivity|]. repeat constructor; eexists; reflexivity.
Qed.

(** On the sample store: the pairs are the objects 13, 14 and 15, and each
    holds a giver among the objects 5 to 7 and a receiver among 9 to 11. *)
Example store_solve_two_objects_sample :
  (Store.solve 3 sample_store [0; 0; 0; 0; 0]).1.1 = Returned 12 ∧
  Forall (λ p, ∃ g r, (Store.solve 3 sample_store [0; 0; 0; 0; 0]).1.2 !! p
                        = Some (Store.List [g; r]) ∧ g ≠ r)
    [13; 14; 15].
Proof.
  split; [reflexivity|].
  exact (store_solve_two_objects 3 sample_store [0; 0; 0; 0; 0] 12
           sample_store_well_formed eq_refl).
Qed.

(** ** The mailer and the main program at work *)

(** A run with [--no-dry-run]: a dead end, a retry, three messages. *)
Example program_sends :
  program sample_render (Args true false) sample_config 25 [ada; bob; cy]
    {["SMTP_PASS" := "secret"]} true ([2; 1; 1; 0; 0] ++ sample_tape) []
  = ([Solved [ada; bob; cy] ([2; 1; 1; 0; 0] ++ sample_tape) (Raised DeadEndException);
      Say "Failed to solve, retrying...";
      Solved [ada; bob; cy] sample_tape (Returned [(ada, bob); (bob, cy); (cy, ada)]);
      Opened true; Smtp (Connect "smtp.example.org" 465) Ok;
      Smtp Ehlo Ok; Smtp (Login "santa@example.org" "secret") Ok;
      SayPart "Sending e-mail to ada@example.org               ";
      Smtp (Sendmail "santa@example.org" "ada@example.org" "Secret Santa: Ada gives to Bob") Ok;
      Say "[OK]"; Sleep 1;
      SayPart "Sending e-mail to bob@example.org               ";
      Smtp (Sendmail "santa@example.org" "bob@example.org" "Secret Santa: Bob gives to Cy") Ok;
      Say "[OK]"; Sleep 1;
      SayPart "Sending e-mail to cy@example.org                ";
      Smtp (Sendmail "santa@example.org" "cy@example.org" "Secret Santa: Cy gives to Ada") Ok;
      Say "[OK]"; Sleep 1;
      Smtp Close Ok; Say EmptyString; Say "Finished!"],
     Done).
Proof. reflexivity. Qed.

(** The same run without [--no-dry-run], the variable of the password not
    being set: the messages are printed. *)
Example program_dry :
  program sample_render (Args false false) sample_config 25 [ada; bob; cy] ∅ true
    sample_tape []
  = ([Solved [ada; bob; cy] sample_tape (Returned [(ada, bob); (bob, cy); (cy, ada)]);
      Opened true; Smtp (Connect "smtp.example.org" 465) Ok;
      Say "Secret Santa: Ada gives to Bob"; Say "Secret Santa: Bob gives to Cy";
      Say "Secret Santa: Cy gives to Ada";
      Smtp Close Ok; Say EmptyString; Say "Finished!"],
     Done).
Proof. reflexivity. Qed.

(** The server refuses the second message: the first participant has been
    mailed, the others have not, and the program finishes. *)
Example program_refused :
  program sample_render (Args true false) sample_config 25 [ada; bob; cy]
    {["SMTP_PASS" := "secret"]} true sample_tape [Ok; Ok; Ok; Ok; SMTPException "refused"]
  = ([Solved [ada; bob; cy] sample_tape (Returned [(ada, bob); (bob, cy); (cy, ada)]);
      Opened true; Smtp (Connect "smtp.example.org" 465) Ok;
      Smtp Ehlo Ok; Smtp (Login "santa@example.org" "secret") Ok;
      SayPart "Sending e-mail to ada@example.org               ";
      Smtp (Sendmail "santa@example.org" "ada@example.org" "Secret Santa: Ada gives to Bob") Ok;
      Say "[OK]"; Sleep 1;
      SayPart "Sending e-mail to bob@example.org               ";
      Smtp (Sendmail "santa@example.org" "bob@example.org" "Secret Santa: Bob gives to Cy")
        (SMTPException "refused");
      Say "SMTP borked: ex=refused";
      Smtp Close Ok; Say EmptyString; Say "Finished!"],
     Done).
Proof. reflexivity. Qed.

(** The server cannot be reached, in a dry run. *)
Example program_no_server :
  program sample_render (Args false false) sample_config 25 [ada; bob; cy] ∅ true
    sample_tape [SMTPException "no route"]
  = ([Solved [ada; bob; cy] sample_tape (Returned [(ada, bob); (bob, cy); (cy, ada)]);
      Opened true; Smtp (Connect "smtp.example.org" 465) (SMTPException "no route");
      Say "SMTP borked: ex=no route"],
     Crash UnboundLocalError).
Proof. reflexivity. Qed.

(** The test mode, with the variable of the password set. *)
Example program_test :
  program sample_render (Args false true) sample_config 25 [ada; bob; cy]
    {["SMTP_PASS" := "secret"]} true sample_tape []
  = ([Say "E-mail testing mode, sending one giver and one receiver e-mail to the configured test address...";
      Opened true; Smtp (Connect "smtp.example.org" 465) Ok;
      Smtp Ehlo Ok; Smtp (Login "santa@example.org" "secret") Ok;
      SayPart "Sending e-mail to tess@example.org              ";
      Smtp (Sendmail "santa@example.org" "tess@example.org"
              "Secret Santa: Tess (giver) gives to Tess (receiver)") Ok;
      Say "[OK]"; Sleep 1;
      Smtp Close Ok; Say "Test e-mails sent"],
     Done).
Proof. reflexivity. Qed.

(** ** More on the matcher *)

Section shuffle_facts.
Context {T : Type}.
Implicit Types x : list T.

Lemma swap_same x i : swap x i i = x.
Proof.
  unfold swap. destruct (x !! i) as [xi|] eqn:Hi; [|done].
  rewrite list_insert_insert_eq. by apply list_insert_id.
Qed.

(** The numbers that make the shuffle leave the list as it is: [i] is
    swapped with itself, for [i] from [len(x) - 1] down to [1]. *)
Lemma shuffle_from_same i x u :
  shuffle_from i x (rev (seq 1 i) ++ u) = Some (x, u).
Proof.
  induction i as [|i IH]; [done|].
  rewrite seq_S, rev_unit. cbn [app shuffle_from Nat.add].
  rewrite Nat.mod_small by lia. by rewrite swap_same.
Qed.

Lemma shuffle_same x u :
  shuffle x (rev (seq 1 (length x - 1)) ++ u) = Some (x, u).
Proof. apply shuffle_from_same. Qed.
End shuffle_facts.

(** A receiver of the pool that is not the giver is accepted when its
    index is drawn. *)
Lemma pick_reach giver receivers r :
  r ∈ receivers → r ≠ giver →
  ∃ k, ∀ u, pick giver receivers (k :: u) = (Returned r, [Draw giver receivers r], u).
Proof.
  intros [i Hi]%list_elem_of_lookup_1 Hne. exists i. intros u.
  cbn [pick]. unfold choice.
  rewrite Nat.mod_small by (by eapply lookup_lt_Some).
  rewrite Hi. by rewrite decide_False.
Qed.

(** The loop over the givers can be led through any pairs [new] whose
    receivers are in the pool and differ from their givers; it then goes on
    with the givers and the receivers that are left. *)
Lemma pair_up_reach new givers receivers left pairs :
  receivers ≡ₚ new.*2 ++ left →
  Forall (λ p : pair, giver_of p ≠ receiver_of p) new →
  ∃ t ds receivers', receivers' ≡ₚ left ∧
    ∀ u, pair_up (new.*1 ++ givers) receivers pairs (t ++ u) =
         let '(o, ds', t') := pair_up givers receivers' (pairs ++ new) u in
         (o, ds ++ ds', t').
Proof.
  revert receivers pairs.
  induction new as [|[g r] new IH]; intros receivers pairs Hperm Hself.
  { exists [], [], receivers. split; [done|]. intros u. simpl. rewrite app_nil_r.
    by destruct (pair_up givers receivers pairs u) as [[??]?]. }
  apply Forall_cons in Hself as [Hgr Hself].
  unfold giver_of, receiver_of in Hgr. simpl in Hgr.
  assert (r ∈ receivers) as Hin.
  { rewrite Hperm. simpl. apply elem_of_cons. by left. }
  destruct (pick_reach g receivers r Hin) as [k Hk]; [done|].
  destruct (remove_is_Some r receivers Hin) as [receivers1 Hrem].
  pose proof (remove_Permutation _ _ _ Hrem) as Hperm1.
  destruct (IH receivers1 (pairs ++ [(g, r)])) as (t & ds & receivers' & Hleft & Ht).
  { rewrite Hperm in Hperm1. simpl in Hperm1. by apply Permutation_cons_inv in Hperm1. }
  { done. }
  exists (k :: t), (Draw g receivers r :: ds), receivers'. split; [done|].
  intros u. rewrite fmap_cons. cbn [fst app pair_up].
  rewrite Hk, Hrem, Ht, <-app_assoc. simpl.
  by destruct (pair_up givers receivers' _ u) as [[??]?].
Qed.

(** A chain of gifts: the first of [a :: l] gives to the second, and so on,
    the last one gives to [z]. *)
Lemma chain_differs (a z : participant) l :
  NoDup (a :: l) → last (a :: l) ≠ Some z →
  Forall (λ p : pair, giver_of p ≠ receiver_of p) (zip (a :: l) (l ++ [z])).
Proof.
  revert a. induction l as [|b l IH]; intros a Hnd Hlast.
  { constructor; [|constructor]. unfold giver_of, receiver_of. simpl in *. congruence. }
  change (zip (a :: b :: l) ((b :: l) ++ [z])) with ((a, b) :: zip (b :: l) (l ++ [z])).
  apply NoDup_cons in Hnd as [Ha Hnd]. constructor.
  - unfold giver_of, receiver_of. simpl. intros ->. apply Ha, elem_of_cons. by left.
  - apply IH; [done|]. by rewrite last_cons_cons in Hlast.
Qed.

(** X1 (indices and removals).  No run of [solve] raises [IndexError] or
    [ValueError]: [random.choice] is never called on an empty list of
    receivers, and the receiver handed to [receivers.remove] is always in
    the list.  This holds for every list of participants, the empty one and
    lists with repeated entries included. *)
Theorem solve_pool_is_safe (participants : list participant) (t : tape) :
  solve participants t ≠ Raised IndexError ∧ solve participants t ≠ Raised ValueError.
Proof.
  pose proof (solve_inv participants t) as Hends.
  split; intros H; rewrite H in Hends; inversion Hends.
Qed.

(** X2 (a repeated name).  When two participants carry the same name,
    [solve] returns on no tape: a run ends in the dead end or in a failed
    assertion of the paranoia test, or it is still drawing when the tape
    ends. *)
Theorem solve_repeated_name (participants : list participant) (t : tape) :
  ¬ NoDup (name <$> participants) →
  solve participants t = Raised DeadEndException
  ∨ (∃ msg, solve participants t = Raised (AssertionError msg))
  ∨ solve participants t = Starved.
Proof.
  intros Hdup. destruct (solve_inv participants t) as [pairs ds _ _ _ Hnd _| | msg ds _ _ |].
  - done.
  - by left.
  - right. left. by exists msg.
  - by right; right.
Qed.

Lemma solve_repeated_name_witness :
  ¬ NoDup (name <$> [ada; Participant "Ada"%string "other@example.org"%string])
  ∧ (solve [ada; Participant "Ada"%string "other@example.org"%string] [0; 0; 1]
       = Raised DeadEndException
     ∨ (∃ msg, solve [ada; Participant "Ada"%string "other@example.org"%string] [0; 0; 1]
               = Raised (AssertionError msg))
     ∨ solve [ada; Participant "Ada"%string "other@example.org"%string] [0; 0; 1] = Starved).
Proof.
  assert (¬ NoDup (name <$> [ada; Participant "Ada"%string "other@example.org"%string]))
    as Hdup.
  { intros Hnd. apply NoDup_cons in Hnd as [Hnot _]. apply Hnot. by constructor. }
  split; [exact Hdup|].
  exact (solve_repeated_name _ [0; 0; 1] Hdup).
Defined.

(** X3 (every pairing can come out).  When the names are pairwise distinct,
    every list of pairs that gives each participant, in the order of the
    input, a receiver other than themselves, the receivers being the
    participants in some order, is returned by [solve] on some tape: the
    random search excludes no valid pairing. *)
Theorem solve_reaches_every_pairing (participants : list participant) (pairs : list pair) :
  NoDup (name <$> participants) →
  pairs.*1 = participants → pairs.*2 ≡ₚ participants →
  Forall (λ p : pair, giver_of p ≠ receiver_of p) pairs →
  ∃ t, solve participants t = Returned pairs.
Proof.
  intros Hnd Hg Hr Hself.
  destruct (pair_up_reach pairs [] participants [] []) as (t & ds & receivers' & Hleft & Ht).
  { by rewrite app_nil_r. }
  { done. }
  apply Permutation_nil_r in Hleft as ->.
  exists (rev (seq 1 (length participants - 1)) ++ t ++ []).
  unfold solve, solve_run. rewrite shuffle_same.
  rewrite <-(app_nil_r participants) at 1. rewrite <-Hg at 1. rewrite Ht. simpl.
  by rewrite (proj2 (paranoia_NoDup participants pairs Hg Hr) Hnd).
Qed.

Lemma solve_reaches_every_pairing_witness :
  NoDup (name <$> [ada; bob; cy])
  ∧ [(ada, cy); (bob, ada); (cy, bob)].*1 = [ada; bob; cy]
  ∧ [(ada, cy); (bob, ada); (cy, bob)].*2 ≡ₚ [ada; bob; cy]
  ∧ Forall (λ p : pair, giver_of p ≠ receiver_of p) [(ada, cy); (bob, ada); (cy, bob)]
  ∧ ∃ t, solve [ada; bob; cy] t = Returned [(ada, cy); (bob, ada); (cy, bob)].
Proof.
  assert (NoDup (name <$> [ada; bob; cy])) as Hnd.
  { compute_done. }
  assert ([(ada, cy); (bob, ada); (cy, bob)].*2 ≡ₚ [ada; bob; cy]) as Hr.
  { exact (Permutation_cons_append [ada; bob] cy). }
  assert (Forall (λ p : pair, giver_of p ≠ receiver_of p) [(ada, cy); (bob, ada); (cy, bob)])
    as Hself by (repeat constructor; done).
  split_and!; [exact Hnd|reflexivity|exact Hr|exact Hself|].
  exact (solve_reaches_every_pairing [ada; bob; cy] [(ada, cy); (bob, ada); (cy, bob)]
           Hnd eq_refl Hr Hself).
Defined.

(** X4 (where the dead end lurks).  With pairwise distinct names, some tape
    leads [solve] into the dead end exactly when there is one participant or
    there are three or more: two participants can always be paired, and from
    three on some draws leave the last giver alone with themselves, which is
    what the retry loop of the main program is for. *)
Theorem solve_dead_end_reachable (participants : list participant) :
  NoDup (name <$> participants) →
  (∃ t, solve participants t = Raised DeadEndException) ↔
  length participants = 1 ∨ 3 ≤ length participants.
Proof.
  intros Hnd%NoDup_names. split.
  - intros [t Ht]. pose proof (solve_inv participants t) as Hends. rewrite Ht in Hends.
    inversion Hends as [| new g ds Hg Hr Hself Hnd' Hds | |]; subst.
    rewrite length_app, length_fmap. simpl.
    destruct new as [|[g1 r1] [|p new]]; simpl; [left; lia| |right; lia].
    exfalso. simpl in Hr. apply (Permutation_app_inv_r [g] [r1] [g1]) in Hr.
    apply Permutation_singleton_l in Hr. simplify_eq.
    apply Forall_cons in Hself as [Hself _]. by apply Hself.
  - intros Hlen.
    destruct participants as [|g l _] using rev_ind; [simpl in Hlen; lia|].
    rewrite length_app in Hlen. simpl in Hlen.
    destruct l as [|a l].
    { exists [0]. unfold solve, solve_run, shuffle. cbn [app length Nat.sub shuffle_from].
      cbn [pair_up pick]. rewrite choice_singleton.
      rewrite decide_True by done. by rewrite decide_True by done. }
    destruct Hlen as [Hlen|Hlen]; [simpl in Hlen; lia|].
    apply NoDup_app in Hnd as (Hnd & _ & _).
    assert (last (a :: l) ≠ Some a) as Hlast.
    { destruct l as [|b l]; [simpl in Hlen; lia|]. rewrite last_cons_cons.
      intros Hin%last_Some_elem_of. by apply NoDup_cons in Hnd as [? _]. }
    pose proof (chain_differs a a l Hnd Hlast) as Hself.
    set (new := zip (a :: l) (l ++ [a])) in *.
    assert (new.*1 = a :: l) as Hg.
    { apply fst_zip. rewrite length_app. simpl. lia. }
    assert (new.*2 = l ++ [a]) as Hr.
    { apply snd_zip. rewrite length_app. simpl. lia. }
    destruct (pair_up_reach new [g] ((a :: l) ++ [g]) [g] [])
      as (t & ds & receivers' & Hleft & Ht); [|done|].
    { rewrite Hr. f_equiv. apply Permutation_cons_append. }
    apply Permutation_singleton_r in Hleft as ->.
    exists (rev (seq 1 (length ((a :: l) ++ [g]) - 1)) ++ t ++ [0]).
    unfold solve, solve_run. rewrite shuffle_same.
    rewrite <-Hg at 1. rewrite Ht. cbn [pair_up pick]. rewrite choice_singleton.
    rewrite decide_True by done. by rewrite decide_True by done.
Qed.

Lemma solve_dead_end_reachable_witness :
  NoDup (name <$> [ada; bob; cy])
  ∧ ((∃ t, solve [ada; bob; cy] t = Raised DeadEndException) ↔
     length [ada; bob; cy] = 1 ∨ 3 ≤ length [ada; bob; cy]).
Proof.
  assert (NoDup (name <$> [ada; bob; cy])) as Hnd by compute_done.
  split; [exact Hnd|]. exact (solve_dead_end_reachable [ada; bob; cy] Hnd).
Defined.

(** X5 (the loop that never ends).  The [while True] loop of one giver
    spins on every tape, however long, exactly when two or more receivers
    are left and every one of them equals the giver: each draw is then
    rejected and the dead end is not recognised, because the list has more
    than one entry.  In every other case there is a number whose draw ends
    the loop at once. *)
Theorem pick_spins_iff (giver : participant) (receivers : list participant) :
  ((∀ t, (pick giver receivers t).1.1 = Starved) ↔
   2 ≤ length receivers ∧ Forall (λ r, r = giver) receivers)
  ∧ (¬ (2 ≤ length receivers ∧ Forall (λ r, r = giver) receivers) →
     ∃ k, ∀ u, terminated (pick giver receivers (k :: u)).1.1).
Proof.
  assert (¬ (2 ≤ length receivers ∧ Forall (λ r, r = giver) receivers) →
          ∃ k, ∀ u, terminated (pick giver receivers (k :: u)).1.1) as Hends.
  { intros Hnot. destruct receivers as [|a [|b l]].
    - by exists 0.
    - apply pick_can_end. by left.
    - apply pick_can_end. right.
      destruct (decide (Forall (λ r, r = giver) (a :: b :: l))) as [Hall|Hex].
      + destruct Hnot. split; [simpl; lia|done].
      + apply not_Forall_Exists in Hex; [|apply _].
        apply Exists_exists in Hex as (r & Hin & Hne). by exists r. }
  split; [|exact Hends]. split.
  - intros Hspin.
    destruct (decide (2 ≤ length receivers ∧ Forall (λ r, r = giver) receivers))
      as [|Hnot]; [done|].
    destruct (Hends Hnot) as [k Hk]. specialize (Hk []). by rewrite Hspin in Hk.
  - intros [Hlen Hall] t. induction t as [|k t IH]; [done|]. cbn [pick].
    destruct (choice_is_Some receivers k) as [r Hr]; [intros ->; simpl in Hlen; lia|].
    rewrite Hr. pose proof (choice_elem_of _ _ _ Hr) as Hin.
    rewrite Forall_forall in Hall. apply Hall in Hin as ->.
    rewrite decide_True by done. rewrite decide_False by lia.
    by destruct (pick giver receivers t) as [[??]?].
Qed.

(** ** The password *)

Lemma startswith_cons a b pre s :
  startswith (String a pre) (String b s) = if Ascii.ascii_dec a b then startswith pre s else false.
Proof. done. Qed.

(** X6 (literal passwords).  A password can be written into the settings so
    that it is used as it is, whatever the environment holds and whether or
    not the run is a dry run, exactly when it does not start with a
    backslash followed by a dollar sign.  A password that starts with a
    dollar sign is written with a backslash in front, which the program
    strips; every other one is written as it is. *)
Theorem literal_password_iff (p : string) :
  (∃ setting, ∀ environ dry_run, resolve_password setting environ dry_run = Resolved p)
  ↔ startswith "\$" p = false.
Proof.
  split.
  - intros [setting Hres]. unfold resolve_password in Hres.
    destruct (startswith "$" setting) eqn:Hdollar.
    + specialize (Hres ∅ false). by rewrite lookup_empty in Hres.
    + destruct (startswith "\$" setting) eqn:Hesc.
      * specialize (Hres ∅ false). simplify_eq.
        destruct setting as [|a [|b s]]; try done. simpl.
        rewrite !startswith_cons in Hesc.
        destruct (Ascii.ascii_dec _ a) as [<-|]; [|done].
        destruct (Ascii.ascii_dec _ b) as [<-|]; [|done]. done.
      * specialize (Hres ∅ false). by simplify_eq.
  - intros Hesc. destruct (startswith "$" p) eqn:Hdollar.
    + exists (String (Ascii.ascii_of_nat 92) p). intros environ dry_run. unfold resolve_password.
      rewrite !startswith_cons. simpl.
      by rewrite Hdollar.
    + exists p. intros environ dry_run. unfold resolve_password. by rewrite Hdollar, Hesc.
Qed.

(** ** The mailer *)

Lemma smtp_calls_app acts1 acts2 :
  smtp_calls (acts1 ++ acts2) = smtp_calls acts1 ++ smtp_calls acts2.
Proof. apply omap_app. Qed.

Lemma delivered_app acts1 acts2 :
  delivered (acts1 ++ acts2) = delivered acts1 ++ delivered acts2.
Proof. apply omap_app. Qed.

Lemma solve_calls_app acts1 acts2 :
  solve_calls (acts1 ++ acts2) = solve_calls acts1 ++ solve_calls acts2.
Proof. apply omap_app. Qed.

Lemma borked_not_OK repr : borked repr ≠ Say "[OK]".
Proof. unfold borked, String.append. discriminate. Qed.


Lemma session_action_calls dry_run acts :
  Forall (session_action dry_run) acts →
  (Close ∉ smtp_calls acts) ∧ (∀ h p, Connect h p ∉ smtp_calls acts) ∧ solve_calls acts = [].
Proof.
  induction 1 as [|a acts Ha _ (IH1 & IH2 & IH3)]; simpl.
  { split_and!; [apply not_elem_of_nil| intros; apply not_elem_of_nil|done]. }
  destruct a as [ok|[h p| |u pw|f r m|] rp|line|text|n|ps t o]; simpl in *; try done;
    split_and!; try done; try (intros ??); rewrite not_elem_of_cons; auto.
Qed.

Lemma session_action_dry acts :
  Forall (session_action true) acts →
  smtp_calls acts = [] ∧ delivered acts = [] ∧ ∀ n, Sleep n ∉ acts.
Proof.
  induction 1 as [|a acts Ha _ (IH1 & IH2 & IH3)]; simpl.
  { split_and!; [done..|intros; apply not_elem_of_nil]. }
  destruct a as [ok|[h p| |u pw|f r m|] rp|line|text|n|ps t o]; simpl in *; try done.
  split_and!; [done..|]. intros n. rewrite not_elem_of_cons. auto.
Qed.

Lemma session_action_quiet acts repr :
  Forall (session_action false) acts → borked repr ∉ acts.
Proof.
  induction 1 as [|a acts Ha _ IH]; [apply not_elem_of_nil|].
  rewrite not_elem_of_cons. split; [|done].
  intros <-. simpl in Ha. by apply (borked_not_OK repr); unfold borked; rewrite Ha.
Qed.

Section mailer.
Context {Rules : Type}.
Variable render : string → participant → participant → string → Rules → option string.
Implicit Types (config : config) (rules : Rules) (pairs : list pair) (w : list reply).

(** The loop sends the messages of the pairs in their order, to the pairs
    it gets through; when it ends without an exception and the run is not a
    dry run, it got through all of them. *)
Lemma send_each_spec config rules pairs dry_run w acts r w' :
  send_each render config rules pairs dry_run w = (acts, r, w') →
  Forall (session_action dry_run) acts ∧
  ∃ sent_to, sent_to `prefix_of` pairs ∧
    message_for render config rules <$> sent_to = Some <$> delivered acts ∧
    (dry_run = false → r = Ok → sent_to = pairs).
Proof.
  revert w acts r w'. induction pairs as [|[giver receiver] pairs IH]; intros w acts r w' H.
  { simpl in H. simplify_eq. split; [constructor|]. by exists []. }
  cbn [send_each] in H.
  destruct (render (user (smtp config)) giver receiver (email_subject config) rules)
    as [email_body|] eqn:Hrender.
  2: { simplify_eq. split; [constructor|]. exists []. split_and!; [apply prefix_nil|done..]. }
  destruct dry_run.
  - destruct (send_each render config rules pairs true w) as [[acts1 r1] w1] eqn:Hrec.
    simplify_eq. destruct (IH _ _ _ _ Hrec) as (Hshape & sent_to & Hpre & Hmsg & _).
    split; [by constructor|].
    destruct (session_action_dry _ Hshape) as (_ & Hdel & _).
    exists []. split_and!; [apply prefix_nil| |done]. simpl. by rewrite Hdel.
  - destruct (next w) as [r0 w0] eqn:Hnext.
    destruct r0 as [|repr|].
    + destruct (send_each render config rules pairs false w0) as [[acts1 r1] w1] eqn:Hrec.
      simplify_eq. destruct (IH _ _ _ _ Hrec) as (Hshape & sent_to & Hpre & Hmsg & Hall).
      split; [by repeat constructor|].
      exists ((giver, receiver) :: sent_to). split_and!.
      * by apply prefix_cons.
      * rewrite fmap_cons. unfold message_for at 1. cbn [giver_of receiver_of fst snd].
        rewrite Hrender. simpl. by rewrite Hmsg.
      * intros _ Hr. by rewrite Hall.
    + simplify_eq. split; [by repeat constructor|].
      exists []. split_and!; [apply prefix_nil|done..].
    + simplify_eq. split; [by repeat constructor|].
      exists []. split_and!; [apply prefix_nil|done..].
Qed.

Lemma session_spec config rules pairs dry_run w acts r w' :
  session render config rules pairs dry_run w = (acts, r, w') →
  Forall (session_action dry_run) acts ∧
  ∃ sent_to, sent_to `prefix_of` pairs ∧
    message_for render config rules <$> sent_to = Some <$> delivered acts ∧
    (dry_run = false → r = Ok → sent_to = pairs).
Proof.
  unfold session. destruct dry_run; [apply send_each_spec|].
  destruct (next w) as [r0 w0] eqn:Hnext.
  destruct r0 as [|repr|];
    [|intros; simplify_eq; split; [by repeat constructor|];
      exists []; split_and!; [apply prefix_nil|done..]..].
  destruct (next w0) as [r1 w1] eqn:Hnext1.
  destruct r1 as [|repr|];
    [|intros; simplify_eq; split; [by repeat constructor|];
      exists []; split_and!; [apply prefix_nil|done..]..].
  destruct (send_each render config rules pairs false w1) as [[acts2 r2] w2] eqn:Hrec.
  intros; simplify_eq. destruct (send_each_spec _ _ _ _ _ _ _ _ Hrec) as (Hshape & Hsent).
  split; [by repeat constructor|]. done.
Qed.



(** The three ways through [send_emails]: the template cannot be read; the
    connection is not made; the connection is made, the [try] block runs to
    its end or to an exception, and the connection is closed. *)
Lemma send_emails_inv config rules pairs dry_run template_ok w acts res w' :
  send_emails render config rules pairs dry_run template_ok w = (acts, res, w') →
  (template_ok = false ∧ acts = [Opened false] ∧ res = Raise ForeignError)
  ∨ (template_ok = true ∧ ∃ r,
       (next w).1 = r ∧ r ≠ Ok ∧ res = Raise UnboundLocalError ∧
       acts = [Opened true; Smtp (Connect (host (smtp config)) (port (smtp config))) r]
              ++ handler r)
  ∨ (template_ok = true ∧ ∃ acts1 r1 w1 rc,
       (next w).1 = Ok ∧
       session render config rules pairs dry_run (next w).2 = (acts1, r1, w1) ∧
       (next w1).1 = rc ∧
       acts = [Opened true; Smtp (Connect (host (smtp config)) (port (smtp config))) Ok]
              ++ acts1 ++ handler r1 ++ [Smtp Close rc] ∧
       res = match rc with
             | Ok => match r1 with OtherError => Raise ForeignError | _ => Return end
             | SMTPException repr => Raise (SMTPError repr)
             | OtherError => Raise ForeignError
             end).
Proof.
  unfold send_emails. destruct template_ok; simpl.
  2: { intros; simplify_eq. by left. }
  destruct (next w) as [r0 w0] eqn:Hnext. destruct r0 as [|repr|].
  - destruct (session render config rules pairs dry_run w0) as [[acts1 r1] w1] eqn:Hs.
    destruct (next w1) as [rc w2] eqn:Hnext1. intros; simplify_eq.
    right; right. split; [done|]. exists acts1, r1, w1, rc. simpl.
    rewrite Hnext1. by split_and!.
  - intros; simplify_eq. right; left. split; [done|]. by exists (SMTPException repr).
  - intros; simplify_eq. right; left. split; [done|]. by exists OtherError.
Qed.

Lemma handler_calls r :
  smtp_calls (handler r) = [] ∧ delivered (handler r) = [] ∧ solve_calls (handler r) = []
  ∧ ∀ n, Sleep n ∉ handler r.
Proof.
  destruct r; simpl; split_and!; try done; intros n; try apply not_elem_of_nil.
  rewrite list_elem_of_singleton. done.
Qed.

(** A dry run of [send_emails]. *)
Lemma send_emails_dry config rules pairs template_ok w acts res w' :
  send_emails render config rules pairs true template_ok w = (acts, res, w') →
  Forall (connect_or_close config) (smtp_calls acts) ∧ delivered acts = []
  ∧ ∀ n, Sleep n ∉ acts.
Proof.
  intros [(_ & -> & _)|[(_ & r & Hr & Hne & _ & ->)|(_ & acts1 & r1 & w1 & rc & Hr & Hs & _ & -> & _)]]
    %send_emails_inv.
  - split_and!; [constructor|done|]. intros n. rewrite list_elem_of_singleton. done.
  - destruct (handler_calls r) as (Hc & Hd & _ & Hsl).
    rewrite smtp_calls_app, delivered_app, Hc, Hd. split_and!.
    + simpl. constructor; [by left|constructor].
    + by destruct r.
    + intros n. rewrite elem_of_app, !elem_of_cons, elem_of_nil.
      intros [[|[|[]]]|?]; try done. by eapply Hsl.
  - apply session_spec in Hs as [Hshape _].
    destruct (session_action_dry _ Hshape) as (Hc1 & Hd1 & Hsl1).
    destruct (handler_calls r1) as (Hc & Hd & _ & Hsl).
    rewrite !smtp_calls_app, !delivered_app, Hc, Hd, Hc1, Hd1. split_and!.
    + simpl. constructor; [by left|]. constructor; [by right|constructor].
    + by destruct rc.
    + intros n. rewrite !elem_of_app, !elem_of_cons, !elem_of_nil.
      intros [[|[|[]]]|[?|[?|[|[]]]]]; try done; [by eapply Hsl1|by eapply Hsl].
Qed.

(** The messages that [send_emails] delivers. *)
Lemma send_emails_delivered config rules pairs dry_run template_ok w acts res w' :
  send_emails render config rules pairs dry_run template_ok w = (acts, res, w') →
  solve_calls acts = [] ∧
  ∃ sent_to, sent_to `prefix_of` pairs ∧
    message_for render config rules <$> sent_to = Some <$> delivered acts ∧
    (dry_run = false → res = Return → (∀ repr, borked repr ∉ acts) → sent_to = pairs).
Proof.
  intros [(_ & -> & ->)|[(_ & r & Hr & Hne & -> & ->)|(_ & acts1 & r1 & w1 & rc & Hr & Hs & _ & -> & ->)]]
    %send_emails_inv.
  - split; [done|]. exists []. split_and!; [apply prefix_nil|done..].
  - destruct (handler_calls r) as (_ & Hd & Hsc & _).
    rewrite solve_calls_app, delivered_app, Hd, Hsc. split; [done|].
    exists []. split_and!; [apply prefix_nil|by destruct r|done].
  - apply session_spec in Hs as (Hshape & sent_to & Hpre & Hmsg & Hall).
    destruct (session_action_calls _ _ Hshape) as (_ & _ & Hsc1).
    destruct (handler_calls r1) as (_ & Hd & Hsc & _).
    rewrite !solve_calls_app, !delivered_app, Hd, Hsc, Hsc1. split; [done|].
    exists sent_to. split_and!; [done| |].
    + simpl. rewrite Hmsg. f_equal. destruct rc; simpl; by rewrite app_nil_r.
    + intros Hdry Hres Hquiet. apply Hall; [done|].
      destruct r1 as [|repr|]; [done| |by destruct rc].
      exfalso. apply (Hquiet repr). rewrite !elem_of_app. right; right; left.
      simpl. by apply list_elem_of_singleton.
Qed.


(** When [send_emails] returns, and the run is not a dry run, every message
    was delivered or the handler has printed its line. *)
Lemma send_emails_Return config rules pairs template_ok w acts w' :
  send_emails render config rules pairs false template_ok w = (acts, Return, w') →
  message_for render config rules <$> pairs = Some <$> delivered acts
  ∨ ∃ repr, borked repr ∈ acts.
Proof.
  intros H.
  pose proof H as [(_ & _ & ?)|[(_ & r & _ & _ & ? & _)
    |(_ & acts1 & r1 & w1 & rc & _ & Hs & _ & -> & Hres)]]%send_emails_inv; [done..|].
  destruct r1 as [|repr|].
  - left. apply send_emails_delivered in H as (_ & sent_to & _ & Hmsg & Hall).
    apply session_spec in Hs as (Hshape & _).
    rewrite <-Hmsg. f_equal. symmetry. apply Hall; [done..|].
    intros repr. rewrite !elem_of_app, !elem_of_cons, !elem_of_nil.
    intros [[|[|[]]]|[?|[[]|[|[]]]]]; try done.
    by eapply session_action_quiet.
  - right. exists repr. rewrite !elem_of_app. right; right; left.
    by apply list_elem_of_singleton.
  - by destruct rc.
Qed.

(** A server that answers every call. *)
Lemma next_Ok w : Forall (eq Ok) w → ∃ w0, next w = (Ok, w0) ∧ Forall (eq Ok) w0.
Proof. intros [|r w' <- Hw]; eexists; by split. Qed.

(** The loop in a dry run, when the template yields a text for every
    pair: the texts are printed. *)
Lemma send_each_prints config rules pairs ms w :
  message_for render config rules <$> pairs = Some <$> ms →
  send_each render config rules pairs true w = (Say ∘ msg_body <$> ms, Ok, w).
Proof.
  revert ms. induction pairs as [|[giver receiver] pairs IH]; intros [|m ms] H;
    simplify_eq/=; [done|].
  unfold message_for in *. simpl in *.
  destruct (render _ _ _ _ _) as [email_body|]; simplify_eq/=.
  by rewrite (IH ms).
Qed.

(** The loop in a run that is no dry run, when the template yields a text
    for every pair and the server accepts every message. *)
Lemma send_each_delivers config rules pairs ms w :
  Forall (eq Ok) w →
  message_for render config rules <$> pairs = Some <$> ms →
  ∃ acts w', send_each render config rules pairs false w = (acts, Ok, w')
             ∧ delivered acts = ms ∧ Forall (eq Ok) w'.
Proof.
  revert ms w. induction pairs as [|[giver receiver] pairs IH]; intros [|m ms] w Hw H;
    simplify_eq/=.
  { by exists [], w. }
  unfold message_for in *. simpl in *.
  destruct (render _ _ _ _ _) as [email_body|]; simplify_eq/=.
  destruct (next_Ok w Hw) as (w0 & -> & Hw').
  destruct (IH ms _ Hw') as (acts & w' & -> & Hd & Hw''); [done|].
  eexists _, w'. split; [done|]. split; [|done]. simpl. by rewrite Hd.
Qed.

End mailer.

(** ** Properties of the mailer *)

Section send_emails_properties.
Context {Rules : Type}.
Variable render : string → participant → participant → string → Rules → option string.
(** X7 (a dry run of the mailer).  In a dry run [send_emails] hands no
    message to the server and does not greet it or log in: the only calls
    to the server are the one that opens the connection and the one that
    closes it.  Nothing is delivered and the program never sleeps.  This
    holds whatever the server answers and whatever the template does.  The
    connection itself is opened in a dry run as well. *)
Theorem send_emails_dry_run (config : config) (rules : Rules) (pairs : list pair)
    (template_ok : bool) (w : list reply) :
  Forall (connect_or_close config)
    (smtp_calls (send_emails render config rules pairs true template_ok w).1.1)
  ∧ delivered (send_emails render config rules pairs true template_ok w).1.1 = []
  ∧ ∀ n, Sleep n ∉ (send_emails render config rules pairs true template_ok w).1.1.
Proof.
  destruct (send_emails render config rules pairs true template_ok w) as [[acts res] w'] eqn:H.
  by apply send_emails_dry in H.
Qed.

(** X8 (who is mailed, and in which order).  The messages that the server
    accepts during a call of [send_emails] are the messages of the first
    pairs of the list, one per pair and in the order of the list: each goes
    from the configured user to the giver of its pair and carries the text
    that the template yields for the pair.  No pair is skipped and none is
    mailed twice, whatever the server answers. *)
Theorem send_emails_in_order (config : config) (rules : Rules) (pairs : list pair)
    (dry_run template_ok : bool) (w : list reply) :
  ∃ sent_to, sent_to `prefix_of` pairs ∧
    message_for render config rules <$> sent_to =
    Some <$> delivered (send_emails render config rules pairs dry_run template_ok w).1.1.
Proof.
  destruct (send_emails render config rules pairs dry_run template_ok w)
    as [[acts res] w'] eqn:H.
  apply send_emails_delivered in H as (_ & sent_to & Hpre & Hmsg & _).
  by exists sent_to.
Qed.

(** X9 (a return is not a delivery).  When [send_emails], not in a dry run,
    returns, then either every pair's message was accepted by the server, in
    the order of the pairs, or the line [SMTP borked] was printed: an
    [smtplib.SMTPException] of the greeting, of the login or of a message
    ends the loop, is printed, and is not passed on to the caller. *)
Theorem send_emails_returns (config : config) (rules : Rules) (pairs : list pair)
    (template_ok : bool) (w : list reply) (acts : list action) (w' : list reply) :
  send_emails render config rules pairs false template_ok w = (acts, Return, w') →
  message_for render config rules <$> pairs = Some <$> delivered acts
  ∨ ∃ repr, borked repr ∈ acts.
Proof. apply send_emails_Return. Qed.

(** X10 (the server that cannot be reached).  [send_emails] raises
    [UnboundLocalError] exactly when the template could be read and the
    connection to the server could not be made, for whatever reason: the
    [finally] clause closes a server that was never bound, and its error
    replaces the one of the connection.  This is so in a dry run too.  In
    that case the server is not closed. *)
Theorem send_emails_unbound_server (config : config) (rules : Rules) (pairs : list pair)
    (dry_run template_ok : bool) (w : list reply) :
  ((send_emails render config rules pairs dry_run template_ok w).1.2 = Raise UnboundLocalError
   ↔ template_ok = true ∧ (next w).1 ≠ Ok)
  ∧ ((next w).1 ≠ Ok →
     Close ∉ smtp_calls (send_emails render config rules pairs dry_run template_ok w).1.1).
Proof.
  destruct (send_emails render config rules pairs dry_run template_ok w)
    as [[acts res] w'] eqn:H. simpl.
  apply send_emails_inv in H
    as [(-> & -> & ->)|[(-> & r & Hr & Hne & -> & ->)
       |(-> & acts1 & r1 & w1 & rc & Hr & Hs & _ & -> & ->)]].
  - split; [split; [done|by intros [? _]]|]. intros _.
    simpl. apply not_elem_of_nil.
  - rewrite Hr. split; [done|]. intros _.
    destruct (handler_calls r) as (Hc & _). rewrite smtp_calls_app, Hc. simpl.
    rewrite list_elem_of_singleton. done.
  - rewrite Hr. split; [|done]. split; [|by intros [_ ?]].
    by destruct rc, r1.
Qed.

(** X11 (the connection is closed once).  When the connection was made,
    [send_emails] closes it exactly once and does so last, on every way out
    of the [try] block; when it was not made, because the template could
    not be read or because the server did not answer, the server is not
    closed at all. *)
Theorem send_emails_closes_once (config : config) (rules : Rules) (pairs : list pair)
    (dry_run template_ok : bool) (w : list reply) :
  (∃ acts' rc,
     template_ok = true ∧ (next w).1 = Ok ∧
     (send_emails render config rules pairs dry_run template_ok w).1.1
       = acts' ++ [Smtp Close rc] ∧
     Close ∉ smtp_calls acts')
  ∨ ((template_ok = false ∨ (next w).1 ≠ Ok) ∧
     Close ∉ smtp_calls (send_emails render config rules pairs dry_run template_ok w).1.1).
Proof.
  destruct (send_emails render config rules pairs dry_run template_ok w)
    as [[acts res] w'] eqn:H. simpl.
  apply send_emails_inv in H
    as [(-> & -> & ->)|[(-> & r & Hr & Hne & -> & ->)
       |(-> & acts1 & r1 & w1 & rc & Hr & Hs & _ & -> & ->)]].
  - right. split; [by left|]. simpl. apply not_elem_of_nil.
  - right. split; [right; by rewrite Hr|].
    destruct (handler_calls r) as (Hc & _). rewrite smtp_calls_app, Hc. simpl.
    rewrite list_elem_of_singleton. done.
  - left. exists ([Opened true; Smtp (Connect (host (smtp config)) (port (smtp config))) Ok]
                  ++ acts1 ++ handler r1), rc.
    split_and!; [done|done|by rewrite <-!app_assoc|].
    apply session_spec in Hs as (Hshape & _).
    destruct (session_action_calls _ _ Hshape) as (Hcl & _).
    destruct (handler_calls r1) as (Hc & _).
    rewrite !smtp_calls_app, Hc, app_nil_r. simpl. rewrite not_elem_of_cons. done.
Qed.

(** X12 (what a dry run shows).  When the template yields a text for every
    pair and the connection is made, a dry run prints exactly those texts,
    one line of output per pair and in the order of the pairs, between the
    opening and the closing of the connection: the texts it shows are the
    bodies of the messages that a run with [--no-dry-run] hands to the
    server. *)
Theorem send_emails_dry_run_prints (config : config) (rules : Rules) (pairs : list pair)
    (ms : list message) (w : list reply) :
  message_for render config rules <$> pairs = Some <$> ms →
  (next w).1 = Ok →
  (send_emails render config rules pairs true true w).1.1 =
  [Opened true; Smtp (Connect (host (smtp config)) (port (smtp config))) Ok]
  ++ (Say ∘ msg_body <$> ms) ++ [Smtp Close (next (next w).2).1].
Proof.
  intros Hms Hw. unfold send_emails, session. simpl negb. cbn match.
  destruct (next w) as [r w0]. simpl in Hw. subst r.
  rewrite (send_each_prints render config rules pairs ms w0 Hms).
  simpl. by destruct (next w0).
Qed.

(** X13 (when nothing fails).  When the template can be read and yields a
    text for every pair, and the server accepts every call, a run of
    [send_emails] that is no dry run returns, and the messages delivered
    are exactly the messages of the pairs, each to the giver of its pair,
    in the order of the pairs. *)
Theorem send_emails_delivers_all (config : config) (rules : Rules) (pairs : list pair)
    (ms : list message) (w : list reply) :
  message_for render config rules <$> pairs = Some <$> ms →
  Forall (eq Ok) w →
  (send_emails render config rules pairs false true w).1.2 = Return
  ∧ delivered (send_emails render config rules pairs false true w).1.1 = ms.
Proof.
  intros Hms Hw. unfold send_emails, session. simpl negb. cbn match.
  destruct (next_Ok w Hw) as (w0 & -> & Hw0).
  destruct (next_Ok _ Hw0) as (w1 & -> & Hw1).
  destruct (next_Ok _ Hw1) as (w2 & -> & Hw2).
  destruct (send_each_delivers render config rules pairs ms _ Hw2 Hms)
    as (acts & w' & -> & Hd & Hw').
  destruct (next_Ok _ Hw') as (w3 & -> & _). simpl. split; [done|].
  rewrite delivered_app, Hd. simpl. by rewrite app_nil_r.
Qed.

End send_emails_properties.

Lemma send_emails_returns_witness :
  send_emails sample_render sample_config 25 [(ada, bob); (bob, ada)] false true
    [Ok; Ok; Ok; Ok; SMTPException "refused"]
  = ((send_emails sample_render sample_config 25 [(ada, bob); (bob, ada)] false true
        [Ok; Ok; Ok; Ok; SMTPException "refused"]).1.1, Return, [])
  ∧ (message_for sample_render sample_config 25 <$> [(ada, bob); (bob, ada)]
       = Some <$> delivered
           (send_emails sample_render sample_config 25 [(ada, bob); (bob, ada)] false true
              [Ok; Ok; Ok; Ok; SMTPException "refused"]).1.1
     ∨ ∃ repr, borked repr ∈
         (send_emails sample_render sample_config 25 [(ada, bob); (bob, ada)] false true
            [Ok; Ok; Ok; Ok; SMTPException "refused"]).1.1).
Proof.
  split; [reflexivity|].
  exact (send_emails_returns sample_render sample_config 25 [(ada, bob); (bob, ada)] true
           [Ok; Ok; Ok; Ok; SMTPException "refused"] _ [] eq_refl).
Defined.

Lemma send_emails_dry_run_prints_witness :
  message_for sample_render sample_config 25 <$> [(ada, bob); (bob, ada)]
  = Some <$> [Message "santa@example.org" "ada@example.org" "Secret Santa: Ada gives to Bob";
              Message "santa@example.org" "bob@example.org" "Secret Santa: Bob gives to Ada"]
  ∧ (next [Ok; SMTPException "bye"]).1 = Ok
  ∧ (send_emails sample_render sample_config 25 [(ada, bob); (bob, ada)] true true
       [Ok; SMTPException "bye"]).1.1
    = [Opened true; Smtp (Connect "smtp.example.org" 465) Ok]
      ++ [Say "Secret Santa: Ada gives to Bob"; Say "Secret Santa: Bob gives to Ada"]
      ++ [Smtp Close (SMTPException "bye")].
Proof.
  split; [reflexivity|]. split; [reflexivity|].
  exact (send_emails_dry_run_prints sample_render sample_config 25 [(ada, bob); (bob, ada)]
           [Message "santa@example.org" "ada@example.org" "Secret Santa: Ada gives to Bob";
            Message "santa@example.org" "bob@example.org" "Secret Santa: Bob gives to Ada"]
           [Ok; SMTPException "bye"] eq_refl eq_refl).
Defined.

Lemma send_emails_delivers_all_witness :
  message_for sample_render sample_config 25 <$> [(ada, bob); (bob, ada)]
  = Some <$> [Message "santa@example.org" "ada@example.org" "Secret Santa: Ada gives to Bob";
              Message "santa@example.org" "bob@example.org" "Secret Santa: Bob gives to Ada"]
  ∧ Forall (eq Ok) [Ok; Ok]
  ∧ (send_emails sample_render sample_config 25 [(ada, bob); (bob, ada)] false true
       [Ok; Ok]).1.2 = Return
  ∧ delivered (send_emails sample_render sample_config 25 [(ada, bob); (bob, ada)] false true
                 [Ok; Ok]).1.1
    = [Message "santa@example.org" "ada@example.org" "Secret Santa: Ada gives to Bob";
       Message "santa@example.org" "bob@example.org" "Secret Santa: Bob gives to Ada"].
Proof.
  assert (Forall (eq Ok) [Ok; Ok]) as Hw by (repeat constructor).
  split; [reflexivity|]. split; [exact Hw|].
  exact (send_emails_delivers_all sample_render sample_config 25 [(ada, bob); (bob, ada)]
           [Message "santa@example.org" "ada@example.org" "Secret Santa: Ada gives to Bob";
            Message "santa@example.org" "bob@example.org" "Secret Santa: Bob gives to Ada"]
           [Ok; Ok] eq_refl Hw).
Defined.

(** ** The main program *)

(** What the run of [solve] that returns has produced. *)
Lemma solve_Returned participants t pairs :
  solve participants t = Returned pairs →
  pairs.*1 = participants ∧ pairs.*2 ≡ₚ participants ∧
  Forall (λ p : pair, giver_of p ≠ receiver_of p) pairs.
Proof.
  intros H. pose proof (solve_inv participants t) as Hends. rewrite H in Hends.
  by inversion Hends.
Qed.



Lemma retry_action_calls acts :
  Forall retry_action acts →
  smtp_calls acts = [] ∧ delivered acts = [] ∧ (∀ n, Sleep n ∉ acts)
  ∧ ∀ repr, borked repr ∉ acts.
Proof.
  induction 1 as [|a acts Ha _ (IH1 & IH2 & IH3 & IH4)]; simpl.
  { split_and!; try done; intros; apply not_elem_of_nil. }
  destruct a as [ok|c rp|line|text|n|ps t o]; simpl in *; try done;
    (split_and!; [done..| |]); intros ?; rewrite not_elem_of_cons; split; try done.
  unfold borked. rewrite Ha. unfold String.append. discriminate.
Qed.

Lemma solve_calls_retry ps t o line acts :
  solve_calls (Solved ps t o :: Say line :: acts) = (ps, t, o) :: solve_calls acts.
Proof. done. Qed.

Lemma messages_to (f : pair → option message) sent_to ms :
  (∀ p m, f p = Some m → msg_to m = email (giver_of p)) →
  f <$> sent_to = Some <$> ms → msg_to <$> ms = email <$> sent_to.*1.
Proof.
  intros Hf. revert ms. induction sent_to as [|p l IH]; intros [|m ms] H; simplify_eq/=.
  { done. }
  f_equal; [by apply Hf|by apply IH].
Qed.

Section main_program.
Context {Rules : Type}.
Variable render : string → participant → participant → string → Rules → option string.
Implicit Types (config : config) (rules : Rules) (pairs : list pair) (w : list reply).

(** The password is of no use to the loop over the pairs. *)
Lemma send_each_password config value rules pairs dry_run w :
  send_each render (set_password config value) rules pairs dry_run w =
  send_each render config rules pairs dry_run w.
Proof.
  revert w. induction pairs as [|[giver receiver] pairs IH]; intros w; [done|].
  cbn [send_each set_password smtp user email_subject]. 
  destruct (render _ _ _ _ _); [|done].
  destruct dry_run; [by rewrite IH|].
  destruct (next w) as [[] ?]; [by rewrite IH|done..].
Qed.

Lemma send_emails_password config value rules pairs template_ok w :
  send_emails render (set_password config value) rules pairs true template_ok w =
  send_emails render config rules pairs true template_ok w.
Proof.
  unfold send_emails, session. cbn [set_password smtp host port].
  destruct template_ok; [|done]. simpl.
  destruct (next w) as [[] ?]; [|done..]. by rewrite send_each_password.
Qed.

Lemma attempt_password n config value rules participants template_ok t w :
  attempt render n (set_password config value) rules participants true template_ok t w =
  attempt render n config rules participants true template_ok t w.
Proof.
  revert t. induction n as [|n IH]; intros t; [done|]. cbn [attempt].
  destruct (solve participants t) as [pairs|[]|]; try done.
  - by rewrite send_emails_password.
  - by rewrite IH.
Qed.

(** In a dry run the password is always found. *)
Lemma resolve_password_dry password environ :
  ∃ value, resolve_password password environ true = Resolved value.
Proof.
  unfold resolve_password. destruct (startswith "$" password).
  - destruct (environ !! from_1 password); by eexists.
  - destruct (startswith "\$" password); by eexists.
Qed.

(** How the retry loop runs: it calls [solve] until a call does not raise
    [DeadEndException], at most [n] times, and sends the e-mails for the
    pairs that are returned, if any. *)
Lemma attempt_spec n config rules participants dry_run template_ok t w acts h :
  attempt render n config rules participants dry_run template_ok t w = (acts, h) →
  ∃ pre post, acts = pre ++ post ∧ Forall retry_action pre ∧
    (((solve_calls pre).*2 = replicate n (Raised DeadEndException)
      ∧ post = closing ∧ h = Done)
     ∨ (∃ pairs mail res w',
          last (solve_calls pre).*2 = Some (Returned pairs) ∧
          (∃ t', solve participants t' = Returned pairs) ∧
          send_emails render config rules pairs dry_run template_ok w = (mail, res, w') ∧
          match res with
          | Return => post = mail ++ closing ∧ h = Done
          | Raise f => post = mail ∧ h = Crash f
          end)
     ∨ (post = [] ∧ ((∃ e, h = Crash (SolverError e)) ∨ h = Hang))).
Proof.
  revert t acts h. induction n as [|n IH]; intros t acts h H; cbn [attempt] in H.
  { simplify_eq. exists [], closing. split_and!; [done|constructor|]. by left. }
  destruct (solve participants t) as [pairs|e|] eqn:Hsolve.
  - destruct (send_emails render config rules pairs dry_run template_ok w)
      as [[mail res] w'] eqn:Hsend.
    exists [Solved participants t (Returned pairs)].
    destruct res as [|f]; simplify_eq.
    + exists (mail ++ closing). split_and!; [done|by repeat constructor|].
      right; left. exists pairs, mail, Return, w'. split_and!; try done. by exists t.
    + exists mail. split_and!; [done|by repeat constructor|].
      right; left. exists pairs, mail, (Raise f), w'. split_and!; try done. by exists t.
  - assert (e = DeadEndException ∨ e ≠ DeadEndException) as [->|Hne]
      by (destruct e; auto).
    + destruct (attempt render n config rules participants dry_run template_ok
                  (rest participants t) w) as [acts1 h1] eqn:Hrec.
      simplify_eq. destruct (IH _ _ _ Hrec) as (pre & post & -> & Hpre & Hcases).
      exists (Solved participants t (Raised DeadEndException)
              :: Say "Failed to solve, retrying..." :: pre), post.
      split_and!; [done|by repeat constructor|].
      destruct Hcases as [(Hall & -> & ->)|[(pairs & mail & res & w' & Hlast & Hcase)|Hcase]].
      * left. rewrite solve_calls_retry, fmap_cons, Hall. done.
      * right; left. exists pairs, mail, res, w'. split; [|done].
        rewrite solve_calls_retry, fmap_cons, last_cons, Hlast. done.
      * by right; right.
    + exists [Solved participants t (Raised e)], [].
      assert (acts = [Solved participants t (Raised e)] ∧ h = Crash (SolverError e))
        as [-> ->] by (destruct e; by simplify_eq).
      split_and!; [done|by repeat constructor|]. right; right. split; [done|].
      left. by exists e.
  - simplify_eq. exists [Solved participants t Starved], [].
    split_and!; [done|by repeat constructor|]. right; right. split; [done|]. by right.
Qed.


End main_program.

(** ** Properties of the main program *)

Section program_properties.
Context {Rules : Type}.
Variable render : string → participant → participant → string → Rules → option string.

(** X14 (the two models of the retry loop).  The
    retry loop of the main program, with the mailer in it, calls [solve] as
    the loop [retry] does, in which the mailer is only recorded: the same
    calls, on the same tapes, in the same order, whatever the mail server
    answers and whether or not the mailer raises.  What is proved of the
    calls of [retry] holds of the calls of the program. *)
Theorem attempt_calls_as_retry (n k : nat) (config : config) (rules : Rules)
    (participants : list participant) (dry_run template_ok : bool) (t : tape)
    (w : list reply) :
  solve_calls (attempt render n config rules participants dry_run template_ok t w).1 =
  calls (events (retry n k participants t)).
Proof.
  revert k t. induction n as [|n IH]; intros k t; [done|]. cbn [attempt retry].
  destruct (solve participants t) as [pairs|e|] eqn:Hsolve.
  - destruct (send_emails render config rules pairs dry_run template_ok w)
      as [[mail res] w'] eqn:Hsend.
    apply send_emails_delivered in Hsend as (Hcalls & _).
    rewrite calls_after.
    destruct res; simpl; rewrite ?solve_calls_app, Hcalls; done.
  - destruct e; try done.
    destruct (attempt render n config rules participants dry_run template_ok
                (rest participants t) w) as [acts1 h1] eqn:Hrec.
    rewrite calls_after. simpl. f_equal.
    rewrite <-(IH (k + 1) (rest participants t)). by rewrite Hrec.
  - done.
Qed.

(** X15 (a dry run does not look at the password).  Without [--no-dry-run]
    and without [--test-email], the program does the same whatever password
    the settings hold and whatever the environment holds: a variable that
    is not set is no error, and the password that is resolved is never
    used. *)
Theorem program_dry_run_ignores_password (a : args) (config : config)
    (value1 value2 : string) (rules : Rules) (participants : list participant)
    (environ1 environ2 : gmap string string) (template_ok : bool) (t : tape)
    (w : list reply) :
  no_dry_run a = false → test_email a = false →
  program render a (set_password config value1) rules participants environ1 template_ok t w =
  program render a (set_password config value2) rules participants environ2 template_ok t w.
Proof.
  intros Hdry Htest. unfold program, run_mode. rewrite Hdry, Htest. simpl negb.
  destruct (resolve_password_dry (password (smtp (set_password config value1))) environ1)
    as [v1 ->].
  destruct (resolve_password_dry (password (smtp (set_password config value2))) environ2)
    as [v2 ->].
  by rewrite !attempt_password.
Qed.

(** X16 (a dry run of the program transmits nothing).  Without
    [--no-dry-run] and without [--test-email], the program opens and closes
    at most a connection: it does not log in, it hands no message to the
    server, nothing is delivered, and it does not sleep.  This holds for
    all settings, participants, random numbers and answers of the server. *)
Theorem program_dry_run_transmits_nothing (a : args) (config : config) (rules : Rules)
    (participants : list participant) (environ : gmap string string)
    (template_ok : bool) (t : tape) (w : list reply) :
  no_dry_run a = false → test_email a = false →
  Forall (connect_or_close config)
    (smtp_calls (program render a config rules participants environ template_ok t w).1)
  ∧ delivered (program render a config rules participants environ template_ok t w).1 = []
  ∧ ∀ n, Sleep n ∉ (program render a config rules participants environ template_ok t w).1.
Proof.
  intros Hdry Htest. unfold program, run_mode. rewrite Hdry, Htest. simpl negb.
  destruct (resolve_password_dry (password (smtp config)) environ) as [v ->].
  cbn match. rewrite attempt_password.
  destruct (attempt render max_attempts config rules participants true template_ok t w)
    as [acts h] eqn:H. simpl.
  apply attempt_spec in H as (pre & post & -> & Hpre & Hcases).
  destruct (retry_action_calls _ Hpre) as (Hc & Hd & Hsl & _).
  rewrite smtp_calls_app, delivered_app, Hc, Hd. simpl.
  assert (Forall (connect_or_close config) (smtp_calls post) ∧ delivered post = []
          ∧ ∀ n, Sleep n ∉ post) as (Hc' & Hd' & Hsl').
  { destruct Hcases as [(_ & -> & _)|[(pairs & mail & res & w' & _ & _ & Hsend & Hres)|[-> _]]].
    - split_and!; [constructor|done|]. intros n. unfold closing.
      rewrite !elem_of_cons, elem_of_nil. by intros [|[|]].
    - apply send_emails_dry in Hsend as (Hc' & Hd' & Hsl').
      destruct res as [|f]; destruct Hres as [-> _]; [|done].
      rewrite smtp_calls_app, delivered_app, Hd'. simpl. rewrite app_nil_r.
      split_and!; [done..|]. intros n. rewrite elem_of_app. intros [Hin|Hin].
      + by apply Hsl' in Hin.
      + unfold closing in Hin. rewrite !elem_of_cons, elem_of_nil in Hin.
        by destruct Hin as [|[|]].
    - split_and!; [constructor|done|]. intros n. apply not_elem_of_nil. }
  split_and!; [done..|]. intros n. rewrite elem_of_app. intros [Hin|Hin].
  - by apply Hsl in Hin.
  - by apply Hsl' in Hin.
Qed.


(** X17 (the test mode).  With [--test-email] the program never calls
    [solve] and mails nobody but the configured test address: at most one
    message is delivered, from the configured user to the test address.
    When the program runs to its last line, either exactly one message was
    delivered or the line [SMTP borked] was printed.  The flag
    [--no-dry-run] plays no role in this: the test mode transmits without
    it. *)
Theorem program_test_mode (a : args) (config : config) (rules : Rules)
    (participants : list participant) (environ : gmap string string)
    (template_ok : bool) (t : tape) (w : list reply) :
  test_email a = true →
  solve_calls (program render a config rules participants environ template_ok t w).1 = []
  ∧ length (delivered (program render a config rules participants environ template_ok t w).1) ≤ 1
  ∧ Forall (λ m, msg_from m = user (smtp config) ∧ msg_to m = email (testing config))
      (delivered (program render a config rules participants environ template_ok t w).1)
  ∧ ((program render a config rules participants environ template_ok t w).2 = Done →
     length (delivered (program render a config rules participants environ template_ok t w).1) = 1
     ∨ ∃ repr,
         borked repr ∈ (program render a config rules participants environ template_ok t w).1).
Proof.
  intros Htest. unfold program, run_mode. rewrite Htest.
  destruct (resolve_password (password (smtp config)) environ (negb (no_dry_run a)))
    as [value|pass_var]; [|simpl; split_and!; [done|lia|constructor|done]].
  cbn match.
  destruct (send_emails render (set_password config value) rules
              (test_pairs (set_password config value)) false template_ok w)
    as [[mail res] w'] eqn:Hsend.
  pose proof (send_emails_delivered _ _ _ _ _ _ _ _ _ _ Hsend)
    as (Hcalls & sent_to & Hpre & Hmsg & Hall).
  assert (length (delivered mail) ≤ 1
          ∧ Forall (λ m, msg_from m = user (smtp config) ∧ msg_to m = email (testing config))
              (delivered mail)) as [Hlen Hto].
  { destruct Hpre as [k Hk]. unfold test_pairs in Hk.
    destruct sent_to as [|p [|p' sent_to]]; simplify_eq/=.
    - destruct (delivered mail); [|done]. split; [simpl; lia|constructor].
    - destruct (delivered mail) as [|m [|??]]; simplify_eq/=.
      split; [lia|]. unfold message_for in *. simpl in *.
      destruct (render _ _ _ _ _); simplify_eq. by repeat constructor. }
  assert (∀ tail, delivered (Say tail :: mail) = delivered mail) as Hintro by done.
  destruct res as [|f]; simpl.
  - rewrite solve_calls_app, delivered_app, Hcalls. simpl. rewrite app_nil_r.
    split_and!; [done..|]. intros _.
    destruct (send_emails_Return _ _ _ _ _ _ _ _ Hsend) as [Hdel|[repr Hin]].
    + left. apply (f_equal length) in Hdel. rewrite !length_fmap in Hdel. by rewrite <-Hdel.
    + right. exists repr. rewrite elem_of_cons, elem_of_app. right; by left.
  - by split_and!.
Qed.


(** X19 (nobody is mailed twice, nobody out of turn).  Without
    [--test-email], the recipients of the messages that are delivered in a
    run of the program are the e-mail addresses of the first participants,
    in the order of the settings: each participant is mailed at most once,
    and the retries never lead to a second mail.  This holds whatever the
    server answers. *)
Theorem program_mails_in_order (a : args) (config : config) (rules : Rules)
    (participants : list participant) (environ : gmap string string)
    (template_ok : bool) (t : tape) (w : list reply) :
  test_email a = false →
  msg_to <$> delivered (program render a config rules participants environ template_ok t w).1
  `prefix_of` email <$> participants.
Proof.
  intros Htest. unfold program, run_mode. rewrite Htest.
  destruct (resolve_password (password (smtp config)) environ (negb (no_dry_run a)))
    as [value|pass_var]; [|apply prefix_nil].
  cbn match.
  destruct (attempt render max_attempts (set_password config value) rules participants
              (negb (no_dry_run a)) template_ok t w) as [acts h] eqn:H. simpl.
  apply attempt_spec in H as (pre & post & -> & Hpre & Hcases).
  destruct (retry_action_calls _ Hpre) as (_ & Hd & _).
  rewrite delivered_app, Hd. simpl.
  destruct Hcases as [(_ & -> & _)|[(pairs & mail & res & w' & _ & [t' Hsolve] & Hsend & Hres)
                                   |[-> _]]]; [apply prefix_nil| |apply prefix_nil].
  apply solve_Returned in Hsolve as (Hg & _).
  apply send_emails_delivered in Hsend as (_ & sent_to & Hprefix & Hmsg & _).
  assert (delivered post = delivered mail) as ->.
  { destruct res; destruct Hres as [-> _]; [|done].
    rewrite delivered_app. simpl. by rewrite app_nil_r. }
  assert (∀ p m, message_for render (set_password config value) rules p = Some m →
                 msg_to m = email (giver_of p)) as Hto.
  { unfold message_for. intros p m Hp. destruct (render _ _ _ _ _); by simplify_eq. }
  rewrite (messages_to _ _ _ Hto Hmsg).
  rewrite <-Hg. destruct Hprefix as [k ->]. rewrite !fmap_app. by eexists.
Qed.

(** X20 (a run that ends well).  When the program, run with [--no-dry-run]
    and without [--test-email], reaches its last line, one of three things
    has happened.  Either every participant was mailed: the delivered
    messages are those of a list of pairs whose givers are the participants
    in their order, whose receivers are the participants in some order, and
    in which nobody gives to themselves.  Or all twenty calls of [solve] hit
    the dead end and nothing was delivered.  Or the line [SMTP borked] was
    printed. *)
Theorem program_mails_everyone (a : args) (config : config) (rules : Rules)
    (participants : list participant) (environ : gmap string string)
    (template_ok : bool) (t : tape) (w : list reply) (acts : list action) :
  test_email a = false → no_dry_run a = true →
  program render a config rules participants environ template_ok t w = (acts, Done) →
  (∃ pairs,
     pairs.*1 = participants ∧ pairs.*2 ≡ₚ participants ∧
     Forall (λ p : pair, giver_of p ≠ receiver_of p) pairs ∧
     message_for render config rules <$> pairs = Some <$> delivered acts)
  ∨ ((solve_calls acts).*2 = replicate max_attempts (Raised DeadEndException)
     ∧ delivered acts = [])
  ∨ ∃ repr, borked repr ∈ acts.
Proof.
  intros Htest Hdry. unfold program, run_mode. rewrite Htest, Hdry. simpl negb.
  destruct (resolve_password (password (smtp config)) environ false)
    as [value|pass_var]; [|done].
  cbn match. intros H.
  apply attempt_spec in H as (pre & post & -> & Hpre & Hcases).
  destruct (retry_action_calls _ Hpre) as (_ & Hd & _).
  rewrite delivered_app, solve_calls_app, Hd. simpl.
  destruct Hcases as [(Hall & -> & _)|[(pairs & mail & res & w' & _ & [t' Hsolve] & Hsend & Hres)
                                      |[_ [[e ?]|?]]]]; [| |done..].
  { right; left. simpl. by rewrite app_nil_r. }
  destruct res as [|f]; destruct Hres as [-> ?]; [|done].
  apply solve_Returned in Hsolve as (Hg & Hr & Hself).
  destruct (send_emails_Return _ _ _ _ _ _ _ _ Hsend) as [Hdel|[repr Hin]].
  - left. exists pairs. split_and!; [done..|].
    rewrite delivered_app. simpl. rewrite app_nil_r. exact Hdel.
  - right; right. exists repr. rewrite !elem_of_app. right; by left.
Qed.

End program_properties.

Lemma program_dry_run_ignores_password_witness :
  no_dry_run (Args false false) = false ∧ test_email (Args false false) = false
  ∧ program sample_render (Args false false) (set_password sample_config "$SMTP_PASS") 25
      [ada; bob; cy] ∅ true sample_tape []
    = program sample_render (Args false false) (set_password sample_config "hunter2") 25
        [ada; bob; cy] {["SMTP_PASS" := "secret"]} true sample_tape [].
Proof.
  split; [reflexivity|]. split; [reflexivity|].
  exact (program_dry_run_ignores_password sample_render (Args false false) sample_config
           "$SMTP_PASS" "hunter2" 25 [ada; bob; cy] ∅ {["SMTP_PASS" := "secret"]} true
           sample_tape [] eq_refl eq_refl).
Defined.

Lemma program_dry_run_transmits_nothing_witness :
  no_dry_run (Args false false) = false ∧ test_email (Args false false) = false
  ∧ (Forall (connect_or_close sample_config)
       (smtp_calls (program sample_render (Args false false) sample_config 25
                      [ada; bob; cy] ∅ true sample_tape []).1)
     ∧ delivered (program sample_render (Args false false) sample_config 25
                    [ada; bob; cy] ∅ true sample_tape []).1 = []
     ∧ ∀ n, Sleep n ∉ (program sample_render (Args false false) sample_config 25
                         [ada; bob; cy] ∅ true sample_tape []).1).
Proof.
  split; [reflexivity|]. split; [reflexivity|].
  exact (program_dry_run_transmits_nothing sample_render (Args false false) sample_config 25
           [ada; bob; cy] ∅ true sample_tape [] eq_refl eq_refl).
Defined.

Lemma program_test_mode_witness :
  test_email (Args false true) = true
  ∧ (solve_calls (program sample_render (Args false true) sample_config 25
                    [ada; bob; cy] ∅ true sample_tape []).1 = []
     ∧ length (delivered (program sample_render (Args false true) sample_config 25
                            [ada; bob; cy] ∅ true sample_tape []).1) ≤ 1
     ∧ Forall (λ m, msg_from m = user (smtp sample_config)
                    ∧ msg_to m = email (testing sample_config))
         (delivered (program sample_render (Args false true) sample_config 25
                       [ada; bob; cy] ∅ true sample_tape []).1)
     ∧ ((program sample_render (Args false true) sample_config 25
           [ada; bob; cy] ∅ true sample_tape []).2 = Done →
        length (delivered (program sample_render (Args false true) sample_config 25
                             [ada; bob; cy] ∅ true sample_tape []).1) = 1
        ∨ ∃ repr, borked repr ∈ (program sample_render (Args false true) sample_config 25
                                   [ada; bob; cy] ∅ true sample_tape []).1)).
Proof.
  split; [reflexivity|].
  exact (program_test_mode sample_render (Args false true) sample_config 25
           [ada; bob; cy] ∅ true sample_tape [] eq_refl).
Defined.

Lemma program_mails_in_order_witness :
  test_email (Args true false) = false
  ∧ msg_to <$> delivered (program sample_render (Args true false) sample_config 25
                            [ada; bob; cy] {["SMTP_PASS" := "secret"]} true sample_tape
                            [Ok; Ok; Ok; Ok; SMTPException "refused"]).1
    `prefix_of` email <$> [ada; bob; cy].
Proof.
  split; [reflexivity|].
  exact (program_mails_in_order sample_render (Args true false) sample_config 25
           [ada; bob; cy] {["SMTP_PASS" := "secret"]} true sample_tape
           [Ok; Ok; Ok; Ok; SMTPException "refused"] eq_refl).
Defined.

Lemma program_mails_everyone_witness :
  test_email (Args true false) = false ∧ no_dry_run (Args true false) = true
  ∧ program sample_render (Args true false) sample_config 25 [ada; bob; cy]
      {["SMTP_PASS" := "secret"]} true sample_tape []
    = ((program sample_render (Args true false) sample_config 25 [ada; bob; cy]
          {["SMTP_PASS" := "secret"]} true sample_tape []).1, Done)
  ∧ ((∃ pairs,
        pairs.*1 = [ada; bob; cy] ∧ pairs.*2 ≡ₚ [ada; bob; cy] ∧
        Forall (λ p : pair, giver_of p ≠ receiver_of p) pairs ∧
        message_for sample_render sample_config 25 <$> pairs
        = Some <$> delivered
            (program sample_render (Args true false) sample_config 25 [ada; bob; cy]
               {["SMTP_PASS" := "secret"]} true sample_tape []).1)
     ∨ ((solve_calls
           (program sample_render (Args true false) sample_config 25 [ada; bob; cy]
              {["SMTP_PASS" := "secret"]} true sample_tape []).1).*2
        = replicate max_attempts (Raised DeadEndException)
        ∧ delivered
            (program sample_render (Args true false) sample_config 25 [ada; bob; cy]
               {["SMTP_PASS" := "secret"]} true sample_tape []).1 = [])
     ∨ ∃ repr, borked repr ∈
         (program sample_render (Args true false) sample_config 25 [ada; bob; cy]
            {["SMTP_PASS" := "secret"]} true sample_tape []).1).
Proof.
  split; [reflexivity|]. split; [reflexivity|]. split; [reflexivity|].
  exact (program_mails_everyone sample_render (Args true false) sample_config 25
           [ada; bob; cy] {["SMTP_PASS" := "secret"]} true sample_tape [] _
           eq_refl eq_refl eq_refl).
Defined.
